(** * Multiregional_ccRCC: the helpers of [functions/utils.py] and
    [lin_colors] of [functions/plotting.py]

    A shallow embedding of [GeneSet], [read_gene_sets], [item_series],
    [to_common_samples], [pivot_vectors], [to_linear_ranges] and
    [lin_colors], the properties of them that the specification states,
    and further properties that the code has.

    Conventions of the embedding
    - a Python [str] is a [string]; a character is a code point below 256;
    - a Python [set] is a [gset], a [dict] a [gmap]; the order in which a
      [set] is iterated is not fixed by the language and is a parameter
      ([set_order]);
    - a call either returns or raises, and may emit warnings on the way
      ([Py]);
    - a pandas [Series] (or the rows of a [DataFrame]) is the list of its
      (label, value) rows, in order; labels may repeat;
    - a [float64] is a primitive binary64 [float]. *)

From Stdlib Require Import Floats ZArith Ascii String.
From stdpp Require Import gmap strings list sorting pretty.

Local Open Scope string_scope.

(** ** Python runtime *)

(** The exceptions that the modelled code can raise. *)
Inductive exn := IndexError | KeyError | ValueError.

(** The outcome of a call: the warnings emitted through [warnings.warn]
    (default filters: a warning is reported and execution goes on), and
    either the returned value or the raised exception. *)
Inductive Py (A : Type) :=
  | Returns (w : list string) (a : A)
  | Raises (w : list string) (e : exn).
Arguments Returns {A} w a.
Arguments Raises {A} w e.

#[global] Instance Py_ret : MRet Py := λ A a, Returns [] a.
#[global] Instance Py_bind : MBind Py := λ A B f m,
  match m with
  | Returns w a =>
      match f a with
      | Returns w' b => Returns (w ++ w') b
      | Raises w' e => Raises (w ++ w') e
      end
  | Raises w e => Raises w e
  end.

Definition raise {A} (e : exn) : Py A := Raises [] e.
Definition warn (msg : string) : Py () := Returns [msg] ().

(** [l[i]] for a non-negative [i]. *)
Definition getitem {A} (l : list A) (i : nat) : Py A :=
  match l !! i with
  | Some x => mret x
  | None => raise IndexError
  end.

(** The order in which a [set] yields its elements: some enumeration of
    them, each once. *)
Record set_order := SetOrder {
  set_list : ∀ `{Countable K}, gset K → list K;
  set_list_perm : ∀ `{Countable K} (s : gset K), set_list s ≡ₚ elements s
}.
Arguments set_list _ {K _ _} s.

Definition elements_order : set_order :=
  {| set_list K _ _ := elements; set_list_perm K _ _ s := reflexivity _ |}.

(** *** Strings *)

Definition tab : ascii := ascii_of_nat 9.

(** [str.isspace] on one character (code points below 256). *)
Definition isspace (c : ascii) : bool :=
  let n := nat_of_ascii c in
  ((9 <=? n) && (n <=? 13) || (28 <=? n) && (n <=? 32)
   || (n =? 133) || (n =? 160))%nat.

Fixpoint lstrip (s : string) : string :=
  match s with
  | String c s' => if isspace c then lstrip s' else s
  | EmptyString => EmptyString
  end.

Fixpoint rstrip (s : string) : string :=
  match s with
  | EmptyString => EmptyString
  | String c s' =>
      match rstrip s' with
      | EmptyString => if isspace c then EmptyString else String c EmptyString
      | r => String c r
      end
  end.

(** [s.strip()] *)
Definition strip (s : string) : string := rstrip (lstrip s).

(** [s.split(sep)] for a one-character separator: never an empty list. *)
Fixpoint split (sep : ascii) (s : string) : list string :=
  match s with
  | EmptyString => [EmptyString]
  | String c s' =>
      if Ascii.eqb c sep then EmptyString :: split sep s'
      else match split sep s' with
           | f :: fs => String c f :: fs
           | [] => [String c EmptyString]
           end
  end.

(** [sep.join(l)] *)
Definition join (sep : ascii) (l : list string) : string :=
  String.concat (String sep EmptyString) l.

(** ** Gene sets *)

(** What [GeneSet.__init__] receives as [genes]: a list (or a tuple), a
    set, or an iterator (a generator, a [map], an open file), which
    yields the items that it has left, once. *)
Inductive iterable :=
  | PyList (l : list string)
  | PySet (s : gset string)
  | PyIterator (l : list string).

(** One iteration over [it], to its end: the items that it yields, and
    [it] afterwards.  A list and a set are left as they were; an
    iterator is left exhausted. *)
Definition iterate (o : set_order) (it : iterable)
    : list string * iterable :=
  match it with
  | PyList l => (l, PyList l)
  | PySet s => (set_list o s, PySet s)
  | PyIterator l => (l, PyIterator [])
  end.

Record GeneSet := mkGeneSet {
  name : string;
  descr : string;
  genes : gset string;
  genes_ordered : list string
}.

(** [GeneSet.__init__]: [set(genes)], then [list(genes)], two
    iterations over the one object [genes]. *)
Definition GeneSet_init (o : set_order) (name descr : string)
    (genes : iterable) : GeneSet :=
  let '(members, genes) := iterate o genes in
  let '(ordered, _) := iterate o genes in
  mkGeneSet name descr (list_to_set members) ordered.

(** [GeneSet.__str__] *)
Definition GeneSet_str (o : set_order) (self : GeneSet) : string :=
  name self +:+ String tab (descr self +:+ String tab
    (join tab (set_list o (genes self)))).

(** The body of the loop of [read_gene_sets], for one line of the file. *)
Definition read_gene_set_line (o : set_order)
    (gene_sets : gmap string GeneSet) (line : string)
    : Py (gmap string GeneSet) :=
  let items := split tab (strip line) in
  item0 ← getitem items 0;
  let name := strip item0 in
  item1 ← getitem items 1;
  let description := strip item1 in
  let genes : gset string := list_to_set (strip <$> drop 2 items) in
  mret (<[name := GeneSet_init o name description (PySet genes)]> gene_sets).

Fixpoint read_gene_sets_loop (o : set_order)
    (gene_sets : gmap string GeneSet) (handle : list string)
    : Py (gmap string GeneSet) :=
  match handle with
  | [] => mret gene_sets
  | line :: rest =>
      gene_sets' ← read_gene_set_line o gene_sets line;
      read_gene_sets_loop o gene_sets' rest
  end.

(** [read_gene_sets]: [handle] is the list of the lines that iterating
    the opened file yields. *)
Definition read_gene_sets (o : set_order) (handle : list string)
    : Py (gmap string GeneSet) :=
  read_gene_sets_loop o ∅ handle.

(** ** Labelled sequences *)

(** A pandas [Series] (or a [DataFrame], [V] being the type of a row):
    its name and its rows, each under its index label.  Labels may
    repeat, as pandas allows. *)
Record Series (K V : Type) := mkSeries {
  sname : option string;
  rows : list (K * V)
}.
Arguments mkSeries {K V} sname rows.
Arguments sname {K V} s.
Arguments rows {K V} s.

(** [s.index] *)
Definition index {K V} (s : Series K V) : list K := (rows s).*1.

Section alignment.
Context `{Countable K} {V : Type}.

(** The rows of [s] under label [k], in the order of [s]. *)
Definition rows_at (s : Series K V) (k : K) : list (K * V) :=
  filter (λ r, r.1 = k) (rows s).

(** [s.loc[labels]] for a list of labels: for each label in turn, the
    rows that carry it; a label that [s] does not have is a [KeyError]. *)
Definition loc (s : Series K V) (labels : list K) : Py (Series K V) :=
  picked ← mapM (λ k, match rows_at s k with
                      | [] => raise KeyError
                      | rs => mret rs
                      end) labels;
  mret (mkSeries (sname s) (concat picked)).

(** The loop of [to_common_samples] over [df_list[1:]]. *)
Definition common_samples (cs : gset K) (rest : list (Series K V)) : gset K :=
  foldl (λ cs df, cs ∩ list_to_set (index df)) cs rest.

Definition to_common_samples (o : set_order) (df_list : list (Series K V))
    : Py (list (Series K V)) :=
  df0 ← getitem df_list 0;
  let cs := common_samples (list_to_set (index df0)) (drop 1 df_list) in
  _ ← (if bool_decide (size cs < 1) then warn "No common samples!"
       else mret ());
  mapM (λ df, loc df (set_list o cs)) df_list.
End alignment.

(** ** Counting pairs *)

(** [pd.Series([item] * len(index), index=index)] *)
Definition constant_series {K A} (item : A) (index : list K)
    : list (K * A) :=
  (λ k, (k, item)) <$> index.

(** [item_series(item, indexed)] when [indexed] is a [Series] or a
    [DataFrame] ([indexed_index] is its index). *)
Definition item_series {K A} (item : A) (indexed_index : list K)
    : list (K * A) :=
  constant_series item indexed_index.

(** [item_series(item, indexed)] when [indexed] is an [int]: labels
    [0 .. indexed-1], and the empty series unless [indexed > 0]. *)
Definition item_series_int {A} (item : A) (indexed : Z) : list (Z * A) :=
  if bool_decide (0 < indexed)%Z
  then (λ i, (i, item)) <$> seqZ 0 indexed
  else [].

(** [item_series(item)], and [item_series(item, indexed)] for an
    [indexed] without an attribute [index] that is not a positive
    [int]: [pd.Series()].  (A list, a [str] or a tuple has a method
    [index]: the code takes its first branch for them, which is not
    modelled.) *)
Definition item_series_none {K A} : list (K * A) := [].

Section pivot.
Context `{Countable K} `{EqDecision V}.
(** The order in which pandas sorts the values that label the axes. *)
Context (Vle : relation V) `{!RelDecision Vle}.

(** A column of a frame: values ([None] is the missing marker, NaN), or
    numbers. *)
Inductive column :=
  | Labels (l : list (option V))
  | Counts (l : list (option Z)).

Record DataFrame := mkDataFrame {
  df_index : list K;
  df_columns : list (string * column)
}.

(** [df[name] = c] on the columns: in place when there is a column of
    that name, at the end otherwise. *)
Definition set_column (name : string) (c : column)
    (cols : list (string * column)) : list (string * column) :=
  if bool_decide (name ∈ cols.*1)
  then (λ nc, if bool_decide (nc.1 = name) then (name, c) else nc) <$> cols
  else cols ++ [(name, c)].

Definition get_column (name : string) (cols : list (string * column))
    : option column :=
  snd <$> (snd <$> list_find (λ nc, nc.1 = name) cols).

(** The value of a series at a label, when the label occurs once. *)
Definition value_at {A} (s : list (K * option A)) (k : K) : option A :=
  mjoin (snd <$> (snd <$> list_find (λ r, r.1 = k) s)).

(** [s.reindex(idx)]: the values of [s] laid out along [idx], missing
    where [s] has no such label.  Nothing to do when [s] is indexed by
    [idx] already; otherwise the labels of [s] must not repeat. *)
Definition reindex {A} (s : list (K * option A)) (idx : list K)
    : Py (list (option A)) :=
  if bool_decide (s.*1 = idx) then mret s.*2
  else if bool_decide (NoDup s.*1) then mret (value_at s <$> idx)
  else raise ValueError.

(** [pd.DataFrame({name1: vec1, name2: vec2})].  A [dict] keeps one
    entry for a key written twice, the last.  Two series are aligned on
    the union of their indexes (in an order that the model leaves open
    when they differ). *)
Definition DataFrame_of_dict (o : set_order)
    (name1 : string) (vec1 : Series K (option V))
    (name2 : string) (vec2 : Series K (option V)) : Py DataFrame :=
  if bool_decide (name1 = name2)
  then mret (mkDataFrame (index vec2) [(name2, Labels (rows vec2).*2)])
  else
    let idx :=
      if bool_decide (index vec1 = index vec2) then index vec1
      else set_list o (list_to_set (index vec1) ∪ list_to_set (index vec2)) in
    col1 ← reindex (rows vec1) idx;
    col2 ← reindex (rows vec2) idx;
    mret (mkDataFrame idx [(name1, Labels col1); (name2, Labels col2)]).

(** [df.assign(name=s)] for a series of numbers. *)
Definition assign (df : DataFrame) (name : string)
    (s : list (K * option Z)) : Py DataFrame :=
  col ← reindex s (df_index df);
  mret (mkDataFrame (df_index df)
          (set_column name (Counts col) (df_columns df))).

(** A label of an axis of a table: a value of a column of values, or a
    number of a column of numbers. *)
Inductive label :=
  | Value (v : V)
  | Number (n : Z).

#[global] Instance label_eq_dec : EqDecision label.
Proof. solve_decision. Defined.

Definition label_value (a : label) : option V :=
  match a with Value v => Some v | Number _ => None end.
Definition label_number (a : label) : option Z :=
  match a with Number n => Some n | Value _ => None end.

(** A column as grouping keys. *)
Definition column_labels (c : column) : list (option label) :=
  match c with
  | Labels l => fmap (M:=option) Value <$> l
  | Counts l => fmap (M:=option) Number <$> l
  end.

(** The labels of an axis, from the keys of the groups: the distinct
    keys, sorted.  The keys of one axis come from one column, so that
    they are all values or all numbers. *)
Definition axis_labels (keys : list label) : list label :=
  (Number <$> merge_sort Z.le (remove_dups (omap label_number keys)))
  ++ (Value <$> merge_sort Vle (remove_dups (omap label_value keys))).

(** The table that [pivot_table] returns: the labels of its rows and
    of its columns, and its cells, row by row. *)
Record PivotTable (A : Type) := mkPivotTable {
  pt_index : list label;
  pt_columns : list label;
  pt_values : list (list A)
}.
Arguments mkPivotTable {A} _ _ _.
Arguments pt_index {A} _.
Arguments pt_columns {A} _.
Arguments pt_values {A} _.

(** The records that take part in the aggregation: those of the rows
    where neither grouping key is missing. *)
Fixpoint pivot_records (il cl : list (option label)) (vl : list (option Z))
    : list (label * label * option Z) :=
  match il, cl, vl with
  | i :: il, c :: cl, v :: vl =>
      match i, c with
      | Some i, Some c => (i, c, v) :: pivot_records il cl vl
      | _, _ => pivot_records il cl vl
      end
  | _, _, _ => []
  end.

(** The records of the group of row label [r] and column label [c]. *)
Definition pivot_group (recs : list (label * label * option Z))
    (r c : label) : list (label * label * option Z) :=
  filter (λ x, x.1.1 = r ∧ x.1.2 = c) recs.

(** The sum of a group, the missing values skipped; no cell (NaN) for
    a combination without rows. *)
Definition pivot_cell (recs : list (label * label * option Z))
    (r c : label) : option Z :=
  match pivot_group recs r c with
  | [] => None
  | g => Some (foldr Z.add 0%Z ((λ x, default 0%Z x.2) <$> g))
  end.

(** [pd.pivot_table(data, columns=.., index=.., values=.., aggfunc=sum)]
    for two grouping columns and a column of numbers to sum.  The rows
    are grouped by the two keys, [index] and [columns], which may be the
    same column; the rows with a missing key are left out, and the
    labels of each axis are the distinct keys met, sorted.  A column
    that is a grouping key is not aggregated: when [values] names one of
    the keys, no column is left to sum, and the table has the row labels
    of the groups and no column.  pandas raises [KeyError] for a column
    that the frame does not have; the column to sum is a column of
    numbers in every frame that [pivot_vectors] builds, and the model
    has no other. *)
Definition pivot_table (data : DataFrame) (columns index values : string)
    : Py (PivotTable (option Z)) :=
  match get_column index (df_columns data),
        get_column columns (df_columns data),
        get_column values (df_columns data) with
  | Some il, Some cl, Some (Counts vl) =>
      let recs := pivot_records (column_labels il) (column_labels cl) vl in
      let rs := axis_labels (recs.*1.*1) in
      if bool_decide (values = index ∨ values = columns)
      then mret (mkPivotTable rs [] ((λ _, []) <$> rs))
      else
        let cs := axis_labels (recs.*1.*2) in
        mret (mkPivotTable rs cs
                ((λ r, (λ c, pivot_cell recs r c) <$> cs) <$> rs))
  | _, _, _ => raise KeyError
  end.

(** [t.fillna(x)] *)
Definition fillna (x : Z) (t : PivotTable (option Z))
    : PivotTable (option Z) :=
  mkPivotTable (pt_index t) (pt_columns t)
    ((λ row : list (option Z), (λ v, Some (default x v)) <$> row)
       <$> pt_values t).

(** [t.astype(int)]: a missing value cannot be converted. *)
Definition astype_int (t : PivotTable (option Z)) : Py (PivotTable Z) :=
  vals ← mapM (mapM (λ v : option Z, match v with
                                     | Some n => mret n
                                     | None => raise ValueError
                                     end)) (pt_values t);
  mret (mkPivotTable (pt_index t) (pt_columns t) vals).

Definition pivot_vectors (o : set_order)
    (vec1 vec2 : Series K (option V)) : Py (PivotTable Z) :=
  let name1 := default "V1" (sname vec1) in
  let name2 := default "V2" (sname vec2) in
  sub_df ← DataFrame_of_dict o name1 vec1 name2 vec2;
  sub_df ← assign sub_df "N" (item_series (Some 1%Z) (df_index sub_df));
  t ← pivot_table sub_df name1 name2 "N";
  astype_int (fillna 0 t).
End pivot.

Arguments pt_index {V A} _.
Arguments pt_columns {V A} _.
Arguments pt_values {V A} _.
Arguments mkPivotTable {V A} _ _ _.

(** ** Linear ranges *)

(** The values of the sequence are [float64]s.  A sequence of [int64]
    values is not modelled: pandas takes its range in integers, and the
    result agrees with that for the [float64] values of its elements
    only as far as these and the range are exact. *)

Set Warnings "-inexact-float".

(** [x == x]: what fails for NaN only. *)
Definition notna (x : float) : bool := (x =? x)%float.

(** The larger and the smaller of two numbers. *)
Definition fmax (x y : float) : float := if (x <? y)%float then y else x.
Definition fmin (x y : float) : float := if (y <? x)%float then y else x.

(** [data.max()] and [data.min()]: the missing values are skipped, and
    the result is NaN when nothing is left. *)
Definition series_max (vals : list float) : float :=
  match filter (λ v, notna v = true) vals with
  | [] => nan
  | v :: vs => foldl fmax v vs
  end.

Definition series_min (vals : list float) : float :=
  match filter (λ v, notna v = true) vals with
  | [] => nan
  | v :: vs => foldl fmin v vs
  end.

(** [np.sort]: ascending, NaN last. *)
Definition sorts_before (x y : float) : bool :=
  (x <=? y)%float || negb (notna y).

Fixpoint sort_insert (x : float) (l : list float) : list float :=
  match l with
  | [] => [x]
  | y :: l' => if sorts_before x y then x :: l else y :: sort_insert x l'
  end.

Definition np_sort (l : list float) : list float := foldr sort_insert [] l.

(** A cut point as the loop holds it: the [int]s [0] and [1] that the
    code writes, or a [float64] of the sorted [ps]. *)
Inductive cut :=
  | IntCut (z : Z)
  | FloatCut (f : float).

(** The [float64] that an [int] becomes in arithmetic with a [float64]
    (for an [int] that fits 63 bits). *)
Definition float_of_int (z : Z) : float :=
  match z with
  | Zneg p => (- of_uint63 (Uint63.of_Z (Zpos p)))%float
  | _ => of_uint63 (Uint63.of_Z z)
  end.

Definition cut_val (c : cut) : float :=
  match c with
  | IntCut z => float_of_int z
  | FloatCut f => f
  end.

Section linear_ranges.
Context {K : Type}.
(** [str] of a [float64] (the shortest decimal that reads back as the
    same number): Python's, not the repository's. *)
Variable float_str : float → string.

(** ['{}'.format(c)] *)
Definition cut_str (c : cut) : string :=
  match c with
  | IntCut z => pretty z
  | FloatCut f => float_str f
  end.

(** ['{}p<x<{}p'.format(tr, tr2)] *)
Definition range_label (tr tr2 : cut) : string :=
  cut_str tr +:+ "p<x<" +:+ cut_str tr2 +:+ "p".

(** [data.min() + data_range * tr] *)
Definition threshold (data_min data_range : float) (tr : cut) : float :=
  (data_min + data_range * cut_val tr)%float.

(** The test of one interval on one value. *)
Definition in_range (data_min data_range : float) (tr tr2 : cut)
    (v : float) : bool :=
  if (cut_val tr =? 0)%float
  then (threshold data_min data_range tr <=? v)%float
       && (v <=? threshold data_min data_range tr2)%float
  else (threshold data_min data_range tr <? v)%float
       && (v <=? threshold data_min data_range tr2)%float.

(** The loop of [to_linear_ranges]: the list [ann] that it builds. *)
Fixpoint linear_ranges_loop (data : list (K * float))
    (data_min data_range : float) (tr : cut) (cuts : list cut)
    : list (list (K * string)) :=
  match cuts with
  | [] => []
  | tr2 :: cuts' =>
      let x := (filter (λ r, in_range data_min data_range tr tr2 r.2 = true)
                  data).*1 in
      constant_series (range_label tr tr2) x
        :: linear_ranges_loop data data_min data_range tr2 cuts'
  end.

Definition linear_ranges_ann (data : list (K * float)) (ps : list float)
    : list (list (K * string)) :=
  let data_range := (series_max data.*2 - series_min data.*2)%float in
  linear_ranges_loop data (series_min data.*2) data_range (IntCut 0)
    ((FloatCut <$> np_sort ps) ++ [IntCut 1]).

(** [to_linear_ranges(data, ps)]: [pd.concat(ann)]. *)
Definition to_linear_ranges (data : list (K * float)) (ps : list float)
    : list (K * string) :=
  concat (linear_ranges_ann data ps).
End linear_ranges.

(** ** Colours of factors (plotting.py) *)

(** [s.unique()]: the distinct values, in the order in which they are
    first met. *)
Fixpoint unique `{EqDecision A} (l : list A) : list A :=
  match l with
  | [] => []
  | x :: l' => x :: filter (λ y, y ≠ x) (unique l')
  end.

(** The one exception that [lin_colors] itself can meet: the attribute
    [colors] of a colormap that has none. *)
Inductive plot_exn := AttributeError.

Section colours.
Context `{EqDecision V}.
(** The order of [np.sort] on the values. *)
Context (Vle : relation V) `{!RelDecision Vle}.
(** A colour, as matplotlib holds it. *)
Context {colour : Type}.

(** A colormap of matplotlib, by what the function uses of it: the
    colour at a point of [0, 1] ([cmap(x)], taken pointwise on an array),
    and the attribute [colors], which the listed colormaps have. *)
Record colormap := mkColormap {
  cmap_call : float → colour;
  cmap_colors : option (list colour)
}.

(** The argument [cmap]: the string ['default'] or a colormap. *)
Inductive cmap_arg :=
  | Default
  | Cmap (c : colormap).

(** matplotlib's and numpy's: [matplotlib.cm.rainbow],
    [matplotlib.colors.to_hex] and [np.linspace(start, stop, num)]. *)
Variable rainbow : colormap.
Variable to_hex : colour → string.
Variable linspace : float → float → nat → list float.

Definition lin_colors (factors_vector : list (option V)) (cmap : cmap_arg)
    (sort : bool) (min_v max_v : float) (linspace_flag : bool)
    : plot_exn + list (V * string) :=
  let unique_factors := unique (omap id factors_vector) in
  let unique_factors :=
    if sort then merge_sort Vle unique_factors else unique_factors in
  let '(cmap, max_v) :=
    match cmap with
    | Default => (rainbow, 0.92%float)
    | Cmap c => (c, max_v)
    end in
  if linspace_flag
  then
    let cmap_colors :=
      cmap_call cmap <$> linspace min_v max_v (length unique_factors) in
    inr (zip unique_factors (to_hex <$> cmap_colors))
  else
    match cmap_colors cmap with
    | Some colors =>
        let cmap_colors := take (length unique_factors) colors in
        inr (zip unique_factors (to_hex <$> cmap_colors))
    | None => inl AttributeError
    end.
End colours.

Arguments colormap : clear implicits.
Arguments cmap_arg : clear implicits.

(** ** Definitions used to state the properties *)

(** A line of a gene-set file, from its fields. *)
Definition line_of (fields : list string) : string := join tab fields.

(** The text of the two lines that the specification quotes. *)
Definition line_SET1 : string :=
  line_of ["SET1"; "desc one"; "GENE_A"; "GENE_B"; "GENE_A"].
Definition line_SET2 : string := line_of ["SET2"; "only_description"].


(** The labels that all the sequences of a list have. *)
Definition common_keys `{Countable K} {V} (df_list : list (Series K V))
    : gset K :=
  match df_list with
  | [] => ∅
  | df0 :: rest => common_samples (list_to_set (index df0)) rest
  end.

(** What [to_common_samples] keeps of one sequence, for the labels [cs]
    taken in the order [o]. *)
Definition restrict `{Countable K} {V} (o : set_order) (cs : gset K)
    (df : Series K V) : Series K V :=
  mkSeries (sname df) (concat (rows_at df <$> set_list o cs)).

(** The pairs (value of [vec1], value of [vec2]) of the samples at which
    neither value is missing, for two sequences over one index. *)
Definition present_pairs {K V} (vec1 vec2 : Series K (option V))
    : list (V * V) :=
  omap (λ p, match p with
             | (Some a, Some b) => Some (a, b)
             | _ => None
             end) (zip (rows vec1).*2 (rows vec2).*2).

(** The sequence that the frame of [pivot_vectors] holds under the
    first axis label: [vec1], or [vec2] when the two labels are the
    same, a [dict] keeping one entry, the last, for a key written
    twice. *)
Definition first_column {K V} (vec1 vec2 : Series K (option V))
    : Series K (option V) :=
  if bool_decide (default "V1" (sname vec1) = default "V2" (sname vec2))
  then vec2 else vec1.

(** The number of samples with value [c] in [vec1] and [r] in [vec2]. *)
Definition pair_count `{EqDecision V} {K} (vec1 vec2 : Series K (option V))
    (c r : V) : nat :=
  length (filter (λ p, p = (c, r)) (present_pairs vec1 vec2)).


(** The cell of a table at a row and a column, by position. *)
Definition table_cell {V} (t : PivotTable Z) (i j : nat) : option Z :=
  pt_values (V:=V) t !! i ≫= (.!! j).

(** The place of a number on the line, NaN apart: the sign class, then
    the exponent, then the mantissa.  The comparisons of binary64 are
    the comparisons of the places, in lexicographic order. *)
Definition SFkey (x : spec_float) : option (Z * Z * Z) :=
  match x with
  | S754_nan => None
  | S754_infinity true => Some (-2, 0, 0)%Z
  | S754_finite true m e => Some (-1, - e, - Zpos m)%Z
  | S754_zero _ => Some (0, 0, 0)%Z
  | S754_finite false m e => Some (1, e, Zpos m)%Z
  | S754_infinity false => Some (2, 0, 0)%Z
  end.

Definition fkey (x : float) : option (Z * Z * Z) := SFkey (Prim2SF x).

(** The lexicographic order of the places. *)
Definition lexlt (a b : Z * Z * Z) : Prop :=
  (a.1.1 < b.1.1 ∨ a.1.1 = b.1.1 ∧
     (a.1.2 < b.1.2 ∨ a.1.2 = b.1.2 ∧ a.2 < b.2))%Z.

(** A number that is neither NaN nor infinite. *)
Definition SFfinite (x : spec_float) : Prop :=
  match x with
  | S754_zero _ | S754_finite _ _ _ => True
  | _ => False
  end.

(** A cut point after the first: a finite number other than 0. *)
Definition later_cut (c : cut) : Prop :=
  is_finite (cut_val c) = true ∧ (cut_val c =? 0)%float = false.

(** The samples above the threshold of one cut and up to the threshold
    of another. *)
Definition rows_between {K} (data : list (K * float))
    (data_min data_range : float) (lo hi : cut) : list (K * float) :=
  filter (λ r, (threshold data_min data_range lo <? r.2)%float
               && (r.2 <=? threshold data_min data_range hi)%float = true)
    data.

(** Thresholds that are finite and do not decrease along the cuts. *)
Fixpoint thresholds_ordered (data_min data_range : float) (tr : cut)
    (cuts : list cut) : Prop :=
  is_finite (threshold data_min data_range tr) = true ∧
  match cuts with
  | [] => True
  | tr2 :: cuts' =>
      (threshold data_min data_range tr
       <=? threshold data_min data_range tr2)%float = true
      ∧ thresholds_ordered data_min data_range tr2 cuts'
  end.

(** The last cut of the walk. *)
Fixpoint last_cut (tr : cut) (cuts : list cut) : cut :=
  match cuts with
  | [] => tr
  | tr2 :: cuts' => last_cut tr2 cuts'
  end.

(** A string of digits without its trailing zeros. *)
Fixpoint rstrip_zeros (s : string) : string :=
  match s with
  | EmptyString => EmptyString
  | String c s' =>
      match rstrip_zeros s' with
      | EmptyString =>
          if Ascii.eqb c "0" then EmptyString else String c EmptyString
      | r => String c r
      end
  end.

(** The exact decimal expansion of a [float64].  [str] prints the same
    digits when the expansion has at most 15 of them and the number is
    of moderate size (0.5, 0.25, 0.125, 75.0); it is used to run the
    model on such numbers. *)
Definition exact_decimal (f : float) : string :=
  match Prim2SF f with
  | S754_zero s => if s then "-0.0" else "0.0"
  | S754_infinity s => if s then "-inf" else "inf"
  | S754_nan => "nan"
  | S754_finite s m e =>
      (if s then "-" else "") +:+
      (if bool_decide (0 ≤ e)%Z then pretty (Z.pos m * 2 ^ e)%Z +:+ ".0"
       else
         let k := (- e)%Z in
         let n := (Z.pos m * 5 ^ k)%Z in
         let digits :=
           match pretty (10 ^ k + n `mod` 10 ^ k)%Z with
           | String _ ds => rstrip_zeros ds
           | EmptyString => EmptyString
           end in
         pretty (n `div` 10 ^ k)%Z +:+ "." +:+
         (if bool_decide (digits = "") then "0" else digits))
  end.

(** The sequences of the examples: the values [0, 25, 50, 75, 100] of
    the specification; two values whose range is not exact in binary64;
    a value and a missing one; the same value twice; infinity twice.
    The labels are the positions. *)
Definition data_quarters : list (Z * float) :=
  [(0%Z, 0%float); (1%Z, 25%float); (2%Z, 50%float); (3%Z, 75%float);
   (4%Z, 100%float)].
Definition data_tenths : list (Z * float) :=
  [(0%Z, 0.2%float); (1%Z, 0.9%float)].
Definition data_missing : list (Z * float) :=
  [(0%Z, 5%float); (1%Z, nan)].
Definition data_flat : list (Z * float) :=
  [(0%Z, 5%float); (1%Z, 5%float)].
Definition data_infinite : list (Z * float) :=
  [(0%Z, infinity); (1%Z, infinity)].

Definition vec_filled : Series string (option Z) :=
  mkSeries None [("s1", Some 1); ("s2", Some 2); ("s3", Some 1)]%Z.
Definition vec_other : Series string (option Z) :=
  mkSeries None [("s1", Some 10); ("s2", Some 20); ("s3", Some 10)]%Z.


(** Three sequences of samples: the first two share [s1] and [s3], the
    third shares nothing with them. *)
Definition samples_x : Series string Z :=
  mkSeries (Some "x") [("s1", 1); ("s2", 2); ("s3", 3)]%Z.
Definition samples_y : Series string Z :=
  mkSeries (Some "y") [("s3", 30); ("s1", 10); ("s4", 40)]%Z.
Definition samples_z : Series string Z :=
  mkSeries None [("s5", 5)]%Z.

(** The name that a line gives its gene set: its first field. *)
Definition line_name (line : string) : option string :=
  strip <$> head (split tab (strip line)).

(** A text without a line break: iterating a file that holds it yields
    it as one line (a file opened as [read_gene_sets] opens it ends its
    lines at ["\n"], ["\r"] and ["\r\n"]). *)
Definition newline : ascii := ascii_of_nat 10.
Definition carriage_return : ascii := ascii_of_nat 13.
Definition one_line (s : string) : Prop :=
  split newline s = [s] ∧ split carriage_return s = [s].

(** A field that the parse gives back as it is: not empty, with no tab
    and no line break in it and no white space at its ends. *)
Definition clean_field (s : string) : Prop :=
  s ≠ "" ∧ strip s = s ∧ split tab s = [s] ∧ one_line s.

(** The axis labels of [pivot_vectors] for two sequences, when they
    differ from each other and from the name of the column of ones. *)
Definition pivot_labels_ok {K V} (vec1 vec2 : Series K (option V)) : Prop :=
  default "V1" (sname vec1) ≠ default "V2" (sname vec2) ∧
  default "V1" (sname vec1) ≠ "N" ∧
  default "V2" (sname vec2) ≠ "N".

(** A catalogue file of three lines, the first two under one name, and
    the catalogue read from it. *)
Definition line_SET1_old : string := line_of ["SET1"; "old"; "GENE_C"].
Definition catalogue_lines : list string :=
  [line_SET1_old; line_SET1; line_SET2].
Definition catalogue_read : gmap string GeneSet :=
  <["SET2" := GeneSet_init elements_order "SET2" "only_description"
                (PySet ∅)]>
    {[ "SET1" := GeneSet_init elements_order "SET1" "desc one"
                   (PySet (list_to_set ["GENE_A"; "GENE_B"])) ]}.

(** A gene set of two genes. *)
Definition gene_set_1 : GeneSet :=
  GeneSet_init elements_order "SET1" "desc one" (PyList ["GENE_A"; "GENE_B"]).

(** What is left of [samples_x] and [samples_y] on their common labels,
    and of [samples_x] and [samples_z]. *)
Definition samples_xy_common : list (Series string Z) :=
  [mkSeries (Some "x") [("s3", 3); ("s1", 1)];
   mkSeries (Some "y") [("s3", 30); ("s1", 10)]]%Z.
Definition samples_xz_common : list (Series string Z) :=
  [mkSeries (Some "x") []; mkSeries None []].

(** Data without any value. *)
Definition data_all_missing : list (Z * float) := [(0%Z, nan); (1%Z, nan)].

(** A vector of factors with a missing value and a repetition, and
    another with the same values. *)
Definition factors_312 : list (option Z) :=
  [Some 3; None; Some 1; Some 3; Some 2]%Z.
Definition factors_123 : list (option Z) :=
  [Some 1; Some 2; Some 2; Some 3]%Z.

(** A colormap of greys that lists two colours, a text for a grey, and
    evenly spaced points, to instantiate matplotlib's and numpy's. *)
Definition grey_map : colormap float :=
  mkColormap (λ x, x) (Some [0%float; 1%float]).
Definition grey_hex (c : float) : string := exact_decimal c.
Definition even_points (start stop : float) (num : nat) : list float :=
  (λ i : nat,
     (start + (stop - start) * float_of_int (Z.of_nat i)
              / float_of_int (Z.of_nat (num - 1)))%float) <$> seq 0 num.

(** * Properties *)

(** ** The [Py] monad *)

Lemma Py_bind_ret {A B} (a : A) (f : A → Py B) : mret a ≫= f = f a.
Proof. unfold mret, mbind, Py_ret, Py_bind. by destruct (f a). Qed.

Lemma Py_mapM_returns {A B} (f : A → Py B) (g : A → B) (l : list A) :
  (∀ x, x ∈ l → f x = Returns [] (g x)) →
  mapM f l = Returns [] (g <$> l).
Proof.
  induction l as [|x l IH]; intros Hf; [done|].
  cbn [mapM]. rewrite (Hf x) by left.
  rewrite IH by (intros y Hy; apply Hf; by right).
  done.
Qed.

Lemma set_list_elem_of (o : set_order) `{Countable K} (s : gset K) (k : K) :
  k ∈ set_list o s ↔ k ∈ s.
Proof. by rewrite (set_list_perm o s), elem_of_elements. Qed.

Lemma set_list_NoDup (o : set_order) `{Countable K} (s : gset K) :
  NoDup (set_list o s).
Proof. rewrite (set_list_perm o s). apply NoDup_elements. Qed.

Lemma set_list_empty (o : set_order) `{Countable K} :
  set_list o (∅ : gset K) = [].
Proof.
  apply Permutation_nil_r. by rewrite (set_list_perm o ∅), elements_empty.
Qed.

Lemma list_to_set_set_list (o : set_order) `{Countable K} (s : gset K) :
  list_to_set (set_list o s) = s.
Proof. apply set_eq; intros k. by rewrite elem_of_list_to_set, set_list_elem_of. Qed.

(** ** Gene sets *)

(** What one line with at least two fields adds to the catalogue. *)
Lemma read_gene_set_line_fields (o : set_order) gene_sets line n d members :
  split tab (strip line) = n :: d :: members →
  read_gene_set_line o gene_sets line =
  Returns [] (<[strip n :=
    GeneSet_init o (strip n) (strip d)
      (PySet (list_to_set (strip <$> members)))]> gene_sets).
Proof. unfold read_gene_set_line. by intros ->. Qed.

(** C1, as the code has it: a line whose stripped text has exactly two
    tab-separated fields is not rejected.  The loop goes on to the next
    line with a gene set of that name and description, without members,
    in the catalogue; a file of that one line is read into the catalogue
    of that one gene set. *)
Theorem read_gene_sets_two_fields (o : set_order)
    (gene_sets : gmap string GeneSet) (line n d : string)
    (rest : list string) :
  split tab (strip line) = [n; d] →
  read_gene_sets_loop o gene_sets (line :: rest) =
  read_gene_sets_loop o
    (<[strip n := mkGeneSet (strip n) (strip d) ∅ []]> gene_sets) rest
  ∧ read_gene_sets o [line] =
    Returns [] {[ strip n := mkGeneSet (strip n) (strip d) ∅ [] ]}.
Proof.
  intros Hsplit.
  assert (∀ m, read_gene_set_line o m line =
    mret (<[strip n := mkGeneSet (strip n) (strip d) ∅ []]> m)) as Hline.
  { intros m. rewrite (read_gene_set_line_fields o _ _ _ _ _ Hsplit).
    unfold GeneSet_init. cbn [fmap list_fmap iterate].
    by rewrite list_to_set_nil, set_list_empty, list_to_set_nil. }
  unfold read_gene_sets. cbn [read_gene_sets_loop].
  by rewrite !Hline, !Py_bind_ret.
Qed.

Lemma read_gene_sets_two_fields_witness :
  split tab (strip line_SET2) = ["SET2"; "only_description"] ∧
  read_gene_sets_loop elements_order ∅ [line_SET2] =
  read_gene_sets_loop elements_order
    (<[strip "SET2" :=
       mkGeneSet (strip "SET2") (strip "only_description") ∅ []]> ∅) []
  ∧ read_gene_sets elements_order [line_SET2] =
    Returns [] {[ strip "SET2" :=
      mkGeneSet (strip "SET2") (strip "only_description") ∅ [] ]}.
Proof.
  split; [reflexivity|].
  apply (read_gene_sets_two_fields elements_order ∅ line_SET2
           "SET2" "only_description" []).
  reflexivity.
Defined.

(** C1, as the specification states it, fails: the two-field line that
    it quotes is read without an error, into a gene set with no member. *)
Lemma read_gene_sets_SET2_returns :
  read_gene_sets elements_order [line_SET2] =
  Returns [] {[ "SET2" := mkGeneSet "SET2" "only_description" ∅ [] ]}.
Proof. vm_compute. reflexivity. Qed.

(** The ordered members of a parsed gene set are its member set in the
    order of iteration of the set: no name twice. *)
Lemma read_gene_set_line_ordered (o : set_order) gene_sets line n d members :
  split tab (strip line) = n :: d :: members →
  ∃ l, read_gene_set_line o gene_sets line =
       Returns [] (<[strip n :=
         mkGeneSet (strip n) (strip d) (list_to_set (strip <$> members)) l]>
         gene_sets)
       ∧ NoDup l ∧ ∀ g, g ∈ l ↔ g ∈ strip <$> members.
Proof.
  intros Hsplit. eexists. split; [|split].
  - rewrite (read_gene_set_line_fields o _ _ _ _ _ Hsplit).
    unfold GeneSet_init. cbn [iterate]. by rewrite list_to_set_set_list.
  - apply set_list_NoDup.
  - intros g. by rewrite set_list_elem_of, elem_of_list_to_set.
Qed.

(** C2 at the line of the specification: the member set is
    [{GENE_A, GENE_B}], and the ordered members are the two elements of
    that set, in the order in which the set is iterated; not the three
    tokens of the line. *)
Theorem read_gene_sets_SET1 (o : set_order) :
  ∃ l, read_gene_sets o [line_SET1] =
       Returns [] {[ "SET1" :=
         mkGeneSet "SET1" "desc one" {[ "GENE_A"; "GENE_B" ]} l ]}
       ∧ l ≡ₚ ["GENE_A"; "GENE_B"]
       ∧ l ≠ ["GENE_A"; "GENE_B"; "GENE_A"].
Proof.
  destruct (read_gene_set_line_ordered o ∅ line_SET1
              "SET1" "desc one" ["GENE_A"; "GENE_B"; "GENE_A"] eq_refl)
    as (l & Hl & Hnd & Hin).
  assert (l ≡ₚ ["GENE_A"; "GENE_B"]) as Hperm.
  { apply NoDup_Permutation; [done| |].
    - by compute_done.
    - intros g. rewrite Hin. cbn.
      rewrite !elem_of_cons, !elem_of_nil. tauto. }
  exists l. split; [|split; [done|]].
  - unfold read_gene_sets. cbn [read_gene_sets_loop]. rewrite Hl.
    change (Returns [] ?m) with (mret (M:=Py) m). rewrite Py_bind_ret.
    reflexivity.
  - intros ->. apply Permutation_length in Hperm. discriminate.
Qed.




Lemma Py_bind_returns_inv {A B} (m : Py A) (f : A → Py B) w b :
  m ≫= f = Returns w b →
  ∃ w1 a w2, m = Returns w1 a ∧ f a = Returns w2 b ∧ w = (w1 ++ w2)%list.
Proof.
  unfold mbind, Py_bind. destruct m as [w1 a|]; [|done].
  destruct (f a) as [w2 b'|] eqn:Hf; [|done].
  intros [= <- <-]. by exists w1, a, w2.
Qed.

(** The invariant of C9 holds of every gene set of a parsed catalogue. *)
Lemma read_gene_sets_invariant (o : set_order) handle w gene_sets :
  read_gene_sets o handle = Returns w gene_sets →
  map_Forall (λ _ g, genes g = list_to_set (genes_ordered g)) gene_sets.
Proof.
  unfold read_gene_sets.
  assert (map_Forall (λ (_ : string) g,
            genes g = list_to_set (genes_ordered g)) ∅) as Hinv
    by apply map_Forall_empty.
  revert Hinv. generalize (∅ : gmap string GeneSet). revert w.
  induction handle as [|line rest IH]; intros w m Hinv Hret.
  - by injection Hret as _ <-.
  - cbn [read_gene_sets_loop] in Hret.
    apply Py_bind_returns_inv in Hret as (w1 & m' & w2 & Hline & Hrest & _).
    apply (IH w2 m'); [|done].
    unfold read_gene_set_line in Hline.
    destruct (split tab (strip line)) as [|n [|d members]]; [done..|].
    injection Hline as _ <-.
    by apply map_Forall_insert_2.
Qed.

(** ** Common samples *)

Lemma concat_join {A} (ls : list (list A)) : concat ls = mjoin ls.
Proof. induction ls as [|l ls IH]; [done|]. cbn. by rewrite IH. Qed.

Section alignment_facts.
Context `{Countable K} {V : Type}.
Implicit Types (df : Series K V) (df_list : list (Series K V)).
Implicit Types (k : K) (cs : gset K).

Lemma elem_of_rows_at df k r : r ∈ rows_at df k ↔ r.1 = k ∧ r ∈ rows df.
Proof. unfold rows_at. by rewrite list_elem_of_filter. Qed.

Lemma elem_of_index df k : k ∈ index df ↔ ∃ v, (k, v) ∈ rows df.
Proof.
  unfold index. rewrite list_elem_of_fmap. split.
  - intros ([k' v] & -> & Hr). by exists v.
  - intros [v Hr]. by exists (k, v).
Qed.

Lemma rows_at_nil df k : rows_at df k = [] ↔ k ∉ index df.
Proof.
  rewrite elem_of_index. split.
  - intros Hnil [v Hr].
    assert ((k, v) ∈ rows_at df k) as Hin by by apply elem_of_rows_at.
    rewrite Hnil in Hin. by apply elem_of_nil in Hin.
  - intros Hnot. apply elem_of_nil_inv. intros [k' v].
    rewrite elem_of_rows_at. intros [Hk Hr]. simpl in Hk. subst k'.
    apply Hnot. by exists v.
Qed.

Lemma loc_returns df (labels : list K) :
  (∀ k, k ∈ labels → k ∈ index df) →
  loc df labels =
  Returns [] (mkSeries (sname df) (concat (rows_at df <$> labels))).
Proof.
  intros Hin. unfold loc.
  rewrite (Py_mapM_returns _ (rows_at df)); [done|].
  intros k Hk. destruct (rows_at df k) as [|r rs] eqn:Hrows; [|done].
  apply rows_at_nil in Hrows. by destruct Hrows; apply Hin.
Qed.

Lemma elem_of_common_samples cs (rest : list (Series K V)) k :
  k ∈ common_samples cs rest ↔ k ∈ cs ∧ ∀ d, d ∈ rest → k ∈ index d.
Proof.
  unfold common_samples. revert cs.
  induction rest as [|df rest IH]; intros cs; cbn [foldl].
  - split; [|by intros []]. intros Hk. split; [done|].
    intros d Hd. by apply elem_of_nil in Hd.
  - rewrite IH, elem_of_intersection, elem_of_list_to_set. split.
    + intros [[Hcs Hdf] Hrest]. split; [done|].
      intros d [->|Hd]%elem_of_cons; auto.
    + intros [Hcs Hall]. split; [split; [done|]|].
      * apply Hall. by left.
      * intros d Hd. apply Hall. by right.
Qed.

Lemma elem_of_common_keys df_list k :
  df_list ≠ [] →
  k ∈ common_keys df_list ↔ ∀ d, d ∈ df_list → k ∈ index d.
Proof.
  destruct df_list as [|df0 rest]; [done|]. intros _.
  cbn [common_keys]. rewrite elem_of_common_samples, elem_of_list_to_set.
  split.
  - intros [H0 Hrest] d [->|Hd]%elem_of_cons; auto.
  - intros Hall. split; [apply Hall; by left|].
    intros d Hd. apply Hall. by right.
Qed.

Lemma rows_at_concat df (labels : list K) k :
  NoDup labels →
  filter (λ r, r.1 = k) (concat (rows_at df <$> labels)) =
  if bool_decide (k ∈ labels) then rows_at df k else [].
Proof.
  induction 1 as [|k' labels Hnotin _ IH]; [done|].
  cbn [fmap list_fmap concat]. rewrite filter_app, IH.
  destruct (decide (k = k')) as [->|Hne].
  - rewrite (bool_decide_eq_true_2 (k' ∈ k' :: labels)) by left.
    rewrite (bool_decide_eq_false_2 (k' ∈ labels)) by done.
    rewrite app_nil_r. unfold rows_at. rewrite list_filter_filter.
    apply list_filter_iff. tauto.
  - replace (filter (λ r, r.1 = k) (rows_at df k')) with (@nil (K * V)).
    + cbn [app].
      rewrite (bool_decide_ext (k ∈ k' :: labels) (k ∈ labels)); [done|].
      rewrite elem_of_cons. tauto.
    + symmetry. apply elem_of_nil_inv. intros r.
      rewrite list_elem_of_filter, elem_of_rows_at. intros [? [? _]].
      congruence.
Qed.

Lemma rows_at_restrict o cs df k :
  k ∈ cs → rows_at (restrict o cs df) k = rows_at df k.
Proof.
  intros Hk. unfold rows_at at 1. cbn [restrict rows].
  rewrite rows_at_concat by apply set_list_NoDup.
  by rewrite bool_decide_eq_true_2 by by apply set_list_elem_of.
Qed.

Lemma elem_of_index_restrict o cs df k :
  k ∈ index (restrict o cs df) ↔ k ∈ cs ∧ k ∈ index df.
Proof.
  rewrite !elem_of_index. cbn [restrict rows]. split.
  - intros [v Hv]. rewrite concat_join in Hv.
    apply list_elem_of_join in Hv as (rs & Hv & Hrs).
    apply list_elem_of_fmap in Hrs as (k' & -> & Hk').
    apply elem_of_rows_at in Hv as [Hk Hv]. simpl in Hk. subst k'.
    split; [by apply set_list_elem_of in Hk'|by exists v].
  - intros [Hcs [v Hv]]. exists v. rewrite concat_join.
    apply list_elem_of_join. exists (rows_at df k). split.
    + by apply elem_of_rows_at.
    + apply list_elem_of_fmap. exists k. by rewrite set_list_elem_of.
Qed.
End alignment_facts.

Section alignment_properties.
Context `{Countable K} {V : Type}.
Implicit Types (df : Series K V) (df_list : list (Series K V)).

(** What [to_common_samples] returns on a list that is not empty. *)
Lemma to_common_samples_returns o df_list :
  df_list ≠ [] →
  to_common_samples o df_list =
  Returns (if bool_decide (size (common_keys df_list) < 1)
           then ["No common samples!"] else [])
    (restrict o (common_keys df_list) <$> df_list).
Proof.
  intros Hne. unfold to_common_samples.
  destruct df_list as [|df0 rest]; [done|].
  change (getitem (df0 :: rest) 0) with (mret (M:=Py) df0).
  rewrite Py_bind_ret.
  change (common_samples (list_to_set (index df0)) (drop 1 (df0 :: rest)))
    with (common_keys (df0 :: rest)).
  set (df_list := df0 :: rest) in *.
  assert (mapM (λ df, loc df (set_list o (common_keys df_list))) df_list
          = Returns [] (restrict o (common_keys df_list) <$> df_list))
    as ->.
  { apply Py_mapM_returns. intros df Hdf. apply loc_returns.
    intros k Hk%set_list_elem_of.
    by apply (elem_of_common_keys df_list k). }
  by case_bool_decide.
Qed.

(** C3: on a list that is not empty, [to_common_samples] returns one
    sequence for each input, in the same position; the labels of each
    are the labels that all the inputs have, and under each of these
    labels it has the rows that its input has. *)
Theorem to_common_samples_correct o df_list :
  df_list ≠ [] →
  ∃ w out,
    to_common_samples o df_list = Returns w out ∧
    length out = length df_list ∧
    ∀ i df, df_list !! i = Some df →
      ∃ df', out !! i = Some df' ∧
        (∀ k, k ∈ index df' ↔ ∀ d, d ∈ df_list → k ∈ index d) ∧
        (∀ k, (∀ d, d ∈ df_list → k ∈ index d) →
              rows_at df' k = rows_at df k).
Proof.
  intros Hne. eexists _, _. split; [by apply to_common_samples_returns|].
  split; [by rewrite length_fmap|].
  intros i df Hi. exists (restrict o (common_keys df_list) df).
  split; [by rewrite list_lookup_fmap, Hi|]. split.
  - intros k. rewrite elem_of_index_restrict, elem_of_common_keys by done.
    split; [by intros []|]. intros Hall. split; [done|].
    apply Hall. by eapply list_elem_of_lookup_2.
  - intros k Hall. apply rows_at_restrict. by apply elem_of_common_keys.
Qed.

(** C7: when no label is common to all the sequences of a list that is
    not empty, [to_common_samples] returns, with the one warning, each
    sequence without any row. *)
Theorem to_common_samples_no_common o df_list :
  df_list ≠ [] →
  (∀ k, ¬ ∀ d, d ∈ df_list → k ∈ index d) →
  to_common_samples o df_list =
  Returns ["No common samples!"]
    ((λ df, mkSeries (sname df) []) <$> df_list).
Proof.
  intros Hne Hnone. rewrite to_common_samples_returns by done.
  assert (common_keys df_list = ∅) as ->.
  { apply elem_of_equiv_empty_L. intros k Hk.
    by apply (Hnone k), elem_of_common_keys. }
  rewrite bool_decide_eq_true_2 by (rewrite size_empty; lia).
  f_equal. apply list_fmap_ext. intros _ df _.
  unfold restrict. by rewrite set_list_empty.
Qed.

(** C8: [to_common_samples], applied to what it returned, returns
    sequences with the same labels, whatever the orders in which the
    two calls iterate their sets. *)
Theorem to_common_samples_idempotent o1 o2 df_list :
  df_list ≠ [] →
  ∃ w out w' out',
    to_common_samples o1 df_list = Returns w out ∧
    to_common_samples o2 out = Returns w' out' ∧
    Forall2 (λ df df', list_to_set (index df') =@{gset K}
                       list_to_set (index df)) out out'.
Proof.
  intros Hne. set (cs := common_keys df_list).
  assert (restrict o1 cs <$> df_list ≠ []) as Hne'.
  { by destruct df_list. }
  eexists _, _, _, _. split; [by apply to_common_samples_returns|].
  split; [by apply to_common_samples_returns|].
  apply Forall2_fmap_r, Forall_Forall2_diag, Forall_forall.
  intros df' Hdf'. apply set_eq. intros k.
  rewrite !elem_of_list_to_set, elem_of_index_restrict.
  rewrite elem_of_common_keys by done.
  split; [by intros []|]. intros Hk. split; [|done].
  intros d Hd. apply list_elem_of_fmap in Hd as (d0 & -> & Hd0).
  apply list_elem_of_fmap in Hdf' as (d1 & -> & Hd1).
  apply elem_of_index_restrict in Hk as [Hcs _].
  apply elem_of_index_restrict. split; [done|].
  by apply (elem_of_common_keys df_list k).
Qed.
End alignment_properties.

Lemma to_common_samples_correct_witness :
  [samples_x; samples_y] ≠ [] ∧
  ∃ w out,
    to_common_samples elements_order [samples_x; samples_y] = Returns w out ∧
    length out = length [samples_x; samples_y] ∧
    ∀ i df, [samples_x; samples_y] !! i = Some df →
      ∃ df', out !! i = Some df' ∧
        (∀ k, k ∈ index df' ↔
              ∀ d, d ∈ [samples_x; samples_y] → k ∈ index d) ∧
        (∀ k, (∀ d, d ∈ [samples_x; samples_y] → k ∈ index d) →
              rows_at df' k = rows_at df k).
Proof.
  split; [discriminate|].
  apply (to_common_samples_correct elements_order [samples_x; samples_y]).
  discriminate.
Defined.

Lemma to_common_samples_no_common_witness :
  [samples_x; samples_z] ≠ [] ∧
  (∀ k, ¬ ∀ d, d ∈ [samples_x; samples_z] → k ∈ index d) ∧
  to_common_samples elements_order [samples_x; samples_z] =
  Returns ["No common samples!"]
    [mkSeries (Some "x") []; mkSeries None []].
Proof.
  assert (∀ k, ¬ ∀ d, d ∈ [samples_x; samples_z] → k ∈ index d) as Hnone.
  { intros k Hall.
    assert (k ∈ index samples_x) as Hx by (apply Hall; left).
    assert (k ∈ index samples_z) as Hz by (apply Hall; right; left).
    cbn in Hx, Hz. apply list_elem_of_singleton in Hz as ->.
    repeat (apply elem_of_cons in Hx as [Hx|Hx]; [discriminate|]).
    by apply elem_of_nil in Hx. }
  split; [discriminate|]. split; [exact Hnone|].
  apply (to_common_samples_no_common elements_order [samples_x; samples_z]);
    [discriminate|exact Hnone].
Defined.

Lemma to_common_samples_idempotent_witness :
  [samples_x; samples_y] ≠ [] ∧
  ∃ w out w' out',
    to_common_samples elements_order [samples_x; samples_y] = Returns w out ∧
    to_common_samples elements_order out = Returns w' out' ∧
    Forall2 (λ df df', list_to_set (index df') =@{gset string}
                       list_to_set (index df)) out out'.
Proof.
  split; [discriminate|].
  apply (to_common_samples_idempotent elements_order elements_order
           [samples_x; samples_y]).
  discriminate.
Defined.

(** ** Counting pairs *)

Lemma filter_all {A} (P : A → Prop) `{!∀ x, Decision (P x)} (l : list A) :
  (∀ x, x ∈ l → P x) → filter P l = l.
Proof.
  induction l as [|x l IH]; intros HP; [done|].
  rewrite filter_cons_True by (apply HP; left).
  rewrite IH; [done|]. intros y Hy. apply HP. by right.
Qed.

Lemma constant_series_index {K A} (item : A) (x : list K) :
  (constant_series item x).*1 = x.
Proof.
  unfold constant_series. rewrite <-list_fmap_compose. apply list_fmap_id.
Qed.

Section pivot_facts.
Context `{Countable K} `{EqDecision V}.
Context (Vle : relation V) `{!RelDecision Vle}.
Implicit Types (vec : Series K (option V)).

Lemma reindex_same {A} (s : list (K * option A)) (idx : list K) :
  s.*1 = idx → reindex s idx = Returns [] s.*2.
Proof. intros Hidx. unfold reindex. by rewrite bool_decide_eq_true_2. Qed.

Lemma get_column_here name c (cols : list (string * column (V:=V))) :
  get_column name ((name, c) :: cols) = Some c.
Proof. unfold get_column. cbn. by rewrite decide_True. Qed.

Lemma get_column_later name name' c (cols : list (string * column (V:=V))) :
  name' ≠ name →
  get_column name ((name', c) :: cols) = get_column name cols.
Proof.
  intros Hne. unfold get_column. cbn. rewrite decide_False by done.
  by destruct (list_find _ cols) as [[]|].
Qed.

(** The frame of two sequences over one index, under two names. *)
Lemma DataFrame_of_dict_shared o vec1 vec2 name1 name2 :
  index vec1 = index vec2 → name1 ≠ name2 →
  DataFrame_of_dict o name1 vec1 name2 vec2 =
  Returns [] (mkDataFrame (index vec1)
    [(name1, Labels (rows vec1).*2); (name2, Labels (rows vec2).*2)]).
Proof.
  intros Hidx Hne. unfold DataFrame_of_dict.
  rewrite (bool_decide_eq_false_2 (name1 = name2)) by done.
  rewrite (bool_decide_eq_true_2 (index vec1 = index vec2)) by done.
  rewrite !reindex_same by done.
  change (Returns [] ?x) with (mret (M:=Py) x). by rewrite !Py_bind_ret.
Qed.

(** The column of ones that [pivot_vectors] adds to it. *)
Lemma assign_ones (idx : list K) (cols : list (string * column (V:=V))) :
  "N" ∉ cols.*1 →
  assign (mkDataFrame idx cols) "N" (item_series (Some 1%Z) idx) =
  Returns [] (mkDataFrame idx
                (cols ++ [("N", Counts ((λ _, Some 1%Z) <$> idx))])).
Proof.
  intros Hnew. unfold assign. cbn [df_index df_columns].
  rewrite reindex_same.
  2:{ apply constant_series_index. }
  change (Returns [] ?x) with (mret (M:=Py) x). rewrite !Py_bind_ret.
  unfold set_column. rewrite bool_decide_eq_false_2 by done.
  unfold item_series, constant_series. by rewrite <-list_fmap_compose.
Qed.

(** The labels of an axis whose keys are values. *)
Lemma axis_labels_values (xs : list V) :
  axis_labels Vle (Value <$> xs) = Value <$> merge_sort Vle (remove_dups xs).
Proof.
  unfold axis_labels.
  assert (omap label_number (Value <$> xs) = []) as ->
    by (induction xs; by cbn).
  assert (omap label_value (Value <$> xs) = xs) as ->.
  { induction xs as [|x xs IH]; [done|]. cbn. by rewrite IH. }
  done.
Qed.

(** [pivot_table] on a frame whose two grouping columns hold values and
    are not the column of numbers. *)
Lemma pivot_table_counts (idx : list K) (cols : list (string * column (V:=V)))
    name1 name2 (v1 v2 : list (option V)) (ns : list (option Z)) :
  get_column name1 cols = Some (Labels v1) →
  get_column name2 cols = Some (Labels v2) →
  get_column "N" cols = Some (Counts ns) →
  name1 ≠ "N" → name2 ≠ "N" →
  pivot_table Vle (mkDataFrame idx cols) name1 name2 "N" =
  let recs := pivot_records (fmap (M:=option) Value <$> v2)
                (fmap (M:=option) Value <$> v1) ns in
  let rs := axis_labels Vle (recs.*1.*1) in
  let cs := axis_labels Vle (recs.*1.*2) in
  Returns [] (mkPivotTable rs cs
                ((λ r, (λ c, pivot_cell recs r c) <$> cs) <$> rs)).
Proof.
  intros Hc1 Hc2 HN H1 H2. unfold pivot_table. cbn [df_columns].
  rewrite Hc1, Hc2, HN. cbn [column_labels].
  rewrite bool_decide_eq_false_2; [done|]. intros [?|?]; congruence.
Qed.

(** [fillna(0).astype(int)] on a table. *)
Lemma astype_int_fillna (t : PivotTable (V:=V) (option Z)) :
  astype_int (fillna 0 t) =
  Returns [] (mkPivotTable (pt_index t) (pt_columns t)
                ((λ row : list (option Z), default 0%Z <$> row)
                   <$> pt_values t)).
Proof.
  unfold astype_int, fillna. cbn [pt_index pt_columns pt_values].
  rewrite (Py_mapM_returns _ (fmap (default 0%Z))).
  - change (Returns [] ?x) with (mret (M:=Py) x). rewrite Py_bind_ret.
    unfold mret, Py_ret. do 2 f_equal.
    rewrite <-list_fmap_compose. apply list_fmap_ext. intros _ row _. cbn.
    rewrite <-list_fmap_compose. by apply list_fmap_ext.
  - intros row (row0 & -> & _)%list_elem_of_fmap.
    apply Py_mapM_returns. by intros v (v0 & -> & _)%list_elem_of_fmap.
Qed.

(** The records of the aggregation, from the pairs of present values. *)
Lemma pivot_records_ones (v1 v2 : list (option V)) (idx : list K) :
  length idx = length v1 →
  pivot_records (fmap (M:=option) Value <$> v2)
    (fmap (M:=option) Value <$> v1) ((λ _, Some 1%Z) <$> idx) =
  (λ p, (Value p.2, Value p.1, Some 1%Z)) <$>
    omap (λ p, match p with
               | (Some a, Some b) => Some (a, b)
               | _ => None
               end) (zip v1 v2).
Proof.
  revert v2 idx. induction v1 as [|a v1 IH]; intros v2 idx Hlen.
  - destruct idx; [|done]. by destruct v2.
  - destruct idx as [|k idx]; [done|]. destruct v2 as [|b v2]; [done|].
    cbn [fmap list_fmap pivot_records zip zip_with omap list_omap].
    injection Hlen as Hlen.
    destruct b as [b|], a as [a|]; cbn; by rewrite IH.
Qed.

(** The sum of a group of records that each count for one. *)
Lemma pivot_cell_ones (ps : list (V * V)) (r c : V) :
  default 0%Z
    (pivot_cell ((λ p, (Value p.2, Value p.1, Some 1%Z)) <$> ps)
       (Value r) (Value c)) =
  Z.of_nat (length (filter (λ p, p = (c, r)) ps)).
Proof.
  unfold pivot_cell, pivot_group.
  assert (∀ l : list (V * V),
    foldr Z.add 0%Z
      ((λ x : label (V:=V) * label (V:=V) * option Z, default 0%Z x.2) <$>
       filter (λ x, x.1.1 = Value r ∧ x.1.2 = Value c)
         ((λ p, (Value p.2, Value p.1, Some 1%Z)) <$> l)) =
    Z.of_nat (length (filter (λ p, p = (c, r)) l))) as Hsum.
  { induction l as [|[c' r'] l IH]; [done|]. cbn [fmap list_fmap].
    rewrite !filter_cons. cbn [fst snd].
    destruct (decide (Value r' = Value r ∧ Value c' = Value c))
      as [[[= ->] [= ->]]|Hne].
    - rewrite decide_True by done. cbn [fmap list_fmap foldr length].
      rewrite IH. cbn. lia.
    - rewrite decide_False by (intros [= -> ->]; tauto). done. }
  specialize (Hsum ps).
  destruct (filter _ (_ <$> ps)) as [|x g] eqn:Hg.
  - cbn in Hsum. cbn. lia.
  - cbn [default]. by rewrite Hsum.
Qed.

Lemma length_filter_or {A} (P Q : A → Prop)
    `{!∀ x, Decision (P x), !∀ x, Decision (Q x)} (l : list A) :
  (∀ x, P x → Q x → False) →
  length (filter (λ x, P x ∨ Q x) l) =
  length (filter P l) + length (filter Q l).
Proof.
  intros Hdisj. induction l as [|x l IH]; [done|].
  rewrite !filter_cons.
  destruct (decide (P x)) as [HP|HP], (decide (Q x)) as [HQ|HQ].
  - by destruct (Hdisj x).
  - rewrite decide_True by by left. cbn. by rewrite IH.
  - rewrite decide_True by by right. cbn. rewrite IH. lia.
  - rewrite decide_False by tauto. done.
Qed.

(** Counting the elements of a list by a key, over keys that do not
    repeat, counts the elements whose key is among them. *)
Lemma sum_counts_by_key {A B} `{EqDecision B} (key : A → B) (Q : A → Prop)
    `{!∀ x, Decision (Q x)} (bs : list B) (l : list A) :
  NoDup bs →
  sum_list_with (λ b, length (filter (λ x, key x = b ∧ Q x) l)) bs =
  length (filter (λ x, key x ∈ bs ∧ Q x) l).
Proof.
  induction 1 as [|b bs Hb _ IH]; cbn [sum_list_with].
  - replace (filter _ l) with (@nil A); [done|].
    symmetry. apply elem_of_nil_inv. intros x [[Hx _] _]%list_elem_of_filter.
    by apply elem_of_nil in Hx.
  - rewrite IH, <-length_filter_or.
    + f_equal. apply list_filter_iff. intros x. rewrite elem_of_cons. tauto.
    + intros x [Hx _] [Hin _]. congruence.
Qed.

Lemma sum_list_with_eq {A} (f g : A → nat) (l : list A) :
  (∀ x, x ∈ l → f x = g x) → sum_list_with f l = sum_list_with g l.
Proof.
  induction l as [|x l IH]; intros Hfg; [done|]. cbn.
  rewrite (Hfg x) by left. rewrite IH; [done|].
  intros y Hy. apply Hfg. by right.
Qed.



(** The table of a frame that holds [v1] under the first axis label and
    [v2] under the second. *)
Lemma pivot_table_pairs (idx : list K) (cols : list (string * column (V:=V)))
    name1 name2 (v1 v2 : list (option V)) :
  get_column name1 cols = Some (Labels v1) →
  get_column name2 cols = Some (Labels v2) →
  get_column "N" cols = Some (Counts ((λ _, Some 1%Z) <$> idx)) →
  name1 ≠ "N" → name2 ≠ "N" → length idx = length v1 →
  pivot_table Vle (mkDataFrame idx cols) name1 name2 "N"
    ≫= (λ t, astype_int (fillna 0 t)) =
  let ps := omap (λ p, match p with
                       | (Some a, Some b) => Some (a, b)
                       | _ => None
                       end) (zip v1 v2) in
  let rs := merge_sort Vle (remove_dups ps.*2) in
  let cs := merge_sort Vle (remove_dups ps.*1) in
  Returns [] (mkPivotTable (Value <$> rs) (Value <$> cs)
    ((λ r, (λ c, Z.of_nat (length (filter (λ p, p = (c, r)) ps))) <$> cs)
       <$> rs)).
Proof.
  intros Hc1 Hc2 HN H1 H2 Hlen.
  rewrite (pivot_table_counts idx cols name1 name2 v1 v2 _ Hc1 Hc2 HN H1 H2).
  cbv zeta.
  change (Returns [] ?x) with (mret (M:=Py) x). rewrite Py_bind_ret.
  rewrite astype_int_fillna. cbn [pt_index pt_columns pt_values].
  rewrite pivot_records_ones by done.
  set (ps := omap _ (zip v1 v2)).
  rewrite <-!list_fmap_compose.
  assert ((fst ∘ fst ∘ (λ p : V * V, (Value p.2, Value p.1, Some 1%Z))) <$> ps
          = Value <$> ps.*2) as ->.
  { rewrite <-list_fmap_compose. by apply list_fmap_ext. }
  assert ((snd ∘ fst ∘ (λ p : V * V, (Value p.2, Value p.1, Some 1%Z))) <$> ps
          = Value <$> ps.*1) as ->.
  { rewrite <-list_fmap_compose. by apply list_fmap_ext. }
  rewrite !axis_labels_values. do 2 f_equal.
  rewrite <-!list_fmap_compose. apply list_fmap_ext. intros _ r _. cbn.
  rewrite <-!list_fmap_compose. apply list_fmap_ext. intros _ c _. cbn.
  apply pivot_cell_ones.
Qed.

(** The table that [pivot_vectors] returns for two sequences over one
    index, under axis labels other than [N]. *)
Lemma pivot_vectors_returns_frame o vec1 vec2 :
  index vec1 = index vec2 →
  default "V1" (sname vec1) ≠ "N" →
  default "V2" (sname vec2) ≠ "N" →
  pivot_vectors Vle o vec1 vec2 =
  let ps := present_pairs (first_column vec1 vec2) vec2 in
  let rs := merge_sort Vle (remove_dups ps.*2) in
  let cs := merge_sort Vle (remove_dups ps.*1) in
  Returns [] (mkPivotTable (Value <$> rs) (Value <$> cs)
    ((λ r, (λ c, Z.of_nat (pair_count (first_column vec1 vec2) vec2 c r))
             <$> cs) <$> rs)).
Proof.
  intros Hidx H1 H2. unfold pivot_vectors, first_column, pair_count.
  case_bool_decide as Hname.
  - unfold DataFrame_of_dict. rewrite bool_decide_eq_true_2 by done.
    rewrite Py_bind_ret. cbn [df_index]. rewrite assign_ones.
    2:{ cbn. rewrite !elem_of_cons, elem_of_nil. intros [?|[]]; congruence. }
    change (Returns [] ?x) with (mret (M:=Py) x). rewrite Py_bind_ret.
    cbn [app]. rewrite Hname.
    apply (pivot_table_pairs (index vec2) _ _ _ (rows vec2).*2 (rows vec2).*2).
    + apply get_column_here.
    + apply get_column_here.
    + rewrite get_column_later by done. apply get_column_here.
    + done.
    + done.
    + unfold index. by rewrite !length_fmap.
  - rewrite DataFrame_of_dict_shared by done.
    change (Returns [] ?x) with (mret (M:=Py) x). rewrite Py_bind_ret.
    cbn [df_index]. rewrite assign_ones.
    2:{ cbn. rewrite !elem_of_cons, elem_of_nil. intros [?|[?|[]]]; congruence. }
    change (Returns [] ?x) with (mret (M:=Py) x). rewrite Py_bind_ret.
    cbn [app].
    apply (pivot_table_pairs (index vec1) _ _ _ (rows vec1).*2 (rows vec2).*2).
    + apply get_column_here.
    + rewrite get_column_later by done. apply get_column_here.
    + rewrite !get_column_later by done. apply get_column_here.
    + done.
    + done.
    + unfold index. by rewrite !length_fmap.
Qed.

(** The same, under two labels that differ. *)
Lemma pivot_vectors_returns o vec1 vec2 :
  index vec1 = index vec2 →
  default "V1" (sname vec1) ≠ default "V2" (sname vec2) →
  default "V1" (sname vec1) ≠ "N" →
  default "V2" (sname vec2) ≠ "N" →
  pivot_vectors Vle o vec1 vec2 =
  let rs := merge_sort Vle (remove_dups (present_pairs vec1 vec2).*2) in
  let cs := merge_sort Vle (remove_dups (present_pairs vec1 vec2).*1) in
  Returns [] (mkPivotTable (Value <$> rs) (Value <$> cs)
    ((λ r, (λ c, Z.of_nat (pair_count vec1 vec2 c r)) <$> cs) <$> rs)).
Proof.
  intros Hidx Hne H1 H2. rewrite pivot_vectors_returns_frame by done.
  unfold first_column. by rewrite bool_decide_eq_false_2.
Qed.


End pivot_facts.



(** ** Linear ranges *)

Lemma SFcompare_key x y a b :
  SFkey x = Some a → SFkey y = Some b →
  SFcompare x y = Some Lt ∧ lexlt a b ∨
  SFcompare x y = Some Eq ∧ a = b ∨
  SFcompare x y = Some Gt ∧ lexlt b a.
Proof.
  unfold lexlt.
  destruct x as [[]|[]| |[] m e], y as [[]|[]| |[] m' e']; simpl;
    intros [= <-] [= <-]; simpl; try (intuition (done || lia)).
  - change (Pos.compare_cont Eq m m') with (m ?= m')%positive.
    destruct (Z.compare_spec e e'), (Pos.compare_spec m m'); simpl; subst;
      intuition (done || lia).
  - change (Pos.compare_cont Eq m m') with (m ?= m')%positive.
    destruct (Z.compare_spec e e'), (Pos.compare_spec m m'); simpl; subst;
      intuition (done || lia).
Qed.

Lemma lexlt_irrefl a : ¬ lexlt a a.
Proof. unfold lexlt. lia. Qed.
Lemma lexlt_asym a b : lexlt a b → ¬ lexlt b a.
Proof. unfold lexlt. lia. Qed.

Lemma ltb_key x y a b :
  fkey x = Some a → fkey y = Some b → (x <? y)%float = true ↔ lexlt a b.
Proof.
  intros Ha Hb. rewrite FloatAxioms.ltb_spec. unfold SFltb.
  destruct (SFcompare_key _ _ _ _ Ha Hb) as [[-> ?]|[[-> ->]|[-> ?]]].
  - done.
  - split; [done|]. by intros ?%lexlt_irrefl.
  - split; [done|]. by intros ?%lexlt_asym.
Qed.

Lemma leb_key x y a b :
  fkey x = Some a → fkey y = Some b → (x <=? y)%float = true ↔ ¬ lexlt b a.
Proof.
  intros Ha Hb. rewrite FloatAxioms.leb_spec. unfold SFleb.
  destruct (SFcompare_key _ _ _ _ Ha Hb) as [[-> ?]|[[-> ->]|[-> ?]]].
  - split; [|done]. intros _. by apply lexlt_asym.
  - split; [|done]. intros _. apply lexlt_irrefl.
  - split; [done|]. by intros [].
Qed.

Lemma eqb_key x y a b :
  fkey x = Some a → fkey y = Some b → (x =? y)%float = true ↔ a = b.
Proof.
  intros Ha Hb. rewrite FloatAxioms.eqb_spec. unfold SFeqb.
  destruct (SFcompare_key _ _ _ _ Ha Hb) as [[-> ?]|[[-> ->]|[-> ?]]].
  - split; [done|]. intros ->. by destruct (lexlt_irrefl b).
  - done.
  - split; [done|]. intros ->. by destruct (lexlt_irrefl b).
Qed.

Lemma is_finite_spec x : is_finite x = true ↔ SFfinite (Prim2SF x).
Proof.
  unfold is_finite, is_nan, is_infinity.
  rewrite !FloatAxioms.eqb_spec, abs_spec.
  replace (Prim2SF infinity) with (S754_infinity false) by reflexivity.
  by destruct (Prim2SF x) as [[]|[]| |[] m e]; unfold SFeqb; simpl;
    rewrite ?Z.compare_refl, ?Pos.compare_cont_refl.
Qed.

Lemma SFfinite_key x : SFfinite x → is_Some (SFkey x).
Proof. by destruct x as [[]|[]| |[] m e]. Qed.

Lemma sub_same_key x y :
  SFfinite (Prim2SF x) → SFfinite (Prim2SF y) → fkey x = fkey y →
  ∃ s, Prim2SF (x - y) = S754_zero s.
Proof.
  rewrite sub_spec. unfold fkey, SF64sub.
  destruct (Prim2SF x) as [[]|[]| |[] m e],
           (Prim2SF y) as [[]|[]| |[] m' e']; try done;
    intros _ _ Hkey; try (by eexists); simplify_eq/=.
  - assert (e = e') as -> by lia. rewrite Z.sub_diag. by eexists.
  - rewrite Z.sub_diag. by eexists.
Qed.

Lemma mul_zero_l x c s :
  Prim2SF x = S754_zero s → SFfinite (Prim2SF c) →
  ∃ s', Prim2SF (x * c) = S754_zero s'.
Proof.
  rewrite mul_spec. intros ->. unfold SF64mul.
  destruct (Prim2SF c) as [[]|[]| |[] m e]; simpl; try done; by eexists.
Qed.

Lemma add_zero_r x z s :
  SFfinite (Prim2SF x) → Prim2SF z = S754_zero s →
  SFfinite (Prim2SF (x + z)) ∧ fkey (x + z) = fkey x.
Proof.
  unfold fkey. rewrite add_spec. intros Hx ->. unfold SF64add.
  by destruct (Prim2SF x) as [[]|[]| |[] m e], s.
Qed.

Lemma fkey_finite x : is_finite x = true → ∃ a, fkey x = Some a.
Proof. intros Hx%is_finite_spec. by apply SFfinite_key in Hx as [a Ha]; exists a. Qed.

Lemma notna_finite x : is_finite x = true → notna x = true.
Proof.
  unfold is_finite, is_nan, notna.
  destruct (x =? x)%float; [done|]. by rewrite orb_true_l.
Qed.

(** Comparisons of finite numbers, read on their places. *)
Ltac float_keys :=
  repeat match goal with
    | H : is_finite ?x = true |- _ =>
        let a := fresh "a" in
        let Ha := fresh "Ha" in
        pose proof (fkey_finite x H) as [a Ha];
        destruct a as [[??]?]; clear H
    end;
  repeat match goal with
    | H : _ = false |- _ => apply not_true_iff_false in H
    | |- _ = false => apply not_true_iff_false
    end;
  repeat match goal with
    | H : context [(?x <? ?y)%float = true] |- _ =>
        rewrite (ltb_key x y _ _ ltac:(eassumption) ltac:(eassumption)) in H
    | H : context [(?x <=? ?y)%float = true] |- _ =>
        rewrite (leb_key x y _ _ ltac:(eassumption) ltac:(eassumption)) in H
    | H : context [(?x =? ?y)%float = true] |- _ =>
        rewrite (eqb_key x y _ _ ltac:(eassumption) ltac:(eassumption)) in H
    | |- context [(?x <? ?y)%float = true] =>
        rewrite (ltb_key x y _ _ ltac:(eassumption) ltac:(eassumption))
    | |- context [(?x <=? ?y)%float = true] =>
        rewrite (leb_key x y _ _ ltac:(eassumption) ltac:(eassumption))
    | |- context [(?x =? ?y)%float = true] =>
        rewrite (eqb_key x y _ _ ltac:(eassumption) ltac:(eassumption))
    end;
  unfold lexlt in *; simpl in *.

Lemma leb_trans x y z :
  is_finite x = true → is_finite y = true → is_finite z = true →
  (x <=? y)%float = true → (y <=? z)%float = true → (x <=? z)%float = true.
Proof. intros Hx Hy Hz Hxy Hyz. float_keys. lia. Qed.

Lemma leb_refl x : is_finite x = true → (x <=? x)%float = true.
Proof. intros Hx. float_keys. lia. Qed.

Lemma ltb_false_leb x y :
  is_finite x = true → is_finite y = true →
  (y <? x)%float = false → (x <=? y)%float = true.
Proof. intros Hx Hy Hxy. float_keys. lia. Qed.

Lemma ltb_true_leb x y :
  is_finite x = true → is_finite y = true →
  (x <? y)%float = true → (x <=? y)%float = true.
Proof. intros Hx Hy Hxy. float_keys. lia. Qed.

Lemma eqb_same_key x y :
  is_finite x = true → is_finite y = true →
  (x =? y)%float = true → fkey x = fkey y.
Proof.
  intros Hx Hy Hxy.
  pose proof (fkey_finite x Hx) as [a Ha].
  pose proof (fkey_finite y Hy) as [b Hb].
  rewrite Ha, Hb. f_equal. by apply (eqb_key x y a b Ha Hb).
Qed.

Lemma same_place x y u :
  is_finite x = true → is_finite y = true → is_finite u = true →
  (y <=? u)%float = true → (u <=? x)%float = true →
  (x =? y)%float = true → fkey u = fkey y.
Proof.
  intros Hx Hy Hu Hyu Hux Hxy.
  pose proof (fkey_finite x Hx) as [[[??]?] Ha].
  pose proof (fkey_finite y Hy) as [[[??]?] Hb].
  pose proof (fkey_finite u Hu) as [[[??]?] Hc].
  rewrite Hb, Hc. clear Hx Hy Hu. float_keys. simplify_eq. f_equal.
  repeat f_equal; lia.
Qed.

Lemma fmin_finite x y :
  is_finite x = true → is_finite y = true → is_finite (fmin x y) = true.
Proof. unfold fmin. by destruct (y <? x)%float. Qed.

Lemma fmax_finite x y :
  is_finite x = true → is_finite y = true → is_finite (fmax x y) = true.
Proof. unfold fmax. by destruct (x <? y)%float. Qed.

Lemma foldl_fmin_spec vs acc :
  is_finite acc = true → Forall (λ v, is_finite v = true) vs →
  is_finite (foldl fmin acc vs) = true ∧
  ∀ u, u ∈ acc :: vs → (foldl fmin acc vs <=? u)%float = true.
Proof.
  intros Hacc Hvs. revert acc Hacc.
  induction Hvs as [|v vs Hv Hvs IH]; intros acc Hacc; cbn [foldl].
  - split; [done|]. intros u ->%list_elem_of_singleton. by apply leb_refl.
  - destruct (IH (fmin acc v)) as [Hfin Hle]; [by apply fmin_finite|].
    split; [done|]. intros u Hu.
    assert ((foldl fmin (fmin acc v) vs <=? fmin acc v)%float = true) as Hm
      by (apply Hle; left).
    assert ((fmin acc v <=? acc)%float = true
            ∧ (fmin acc v <=? v)%float = true)
      as [Hma Hmv].
    { unfold fmin. destruct (v <? acc)%float eqn:Hlt.
      - split; [by apply ltb_true_leb|by apply leb_refl].
      - split; [by apply leb_refl|by apply ltb_false_leb]. }
    pose proof (fmin_finite acc v Hacc Hv) as Hfm.
    apply elem_of_cons in Hu as [->|[->|Hu]%elem_of_cons].
    + by apply (leb_trans _ (fmin acc v)).
    + by apply (leb_trans _ (fmin acc v)).
    + apply Hle. by right.
Qed.

Lemma foldl_fmax_spec vs acc :
  is_finite acc = true → Forall (λ v, is_finite v = true) vs →
  is_finite (foldl fmax acc vs) = true ∧
  ∀ u, u ∈ acc :: vs → (u <=? foldl fmax acc vs)%float = true.
Proof.
  intros Hacc Hvs. revert acc Hacc.
  induction Hvs as [|v vs Hv Hvs IH]; intros acc Hacc; cbn [foldl].
  - split; [done|]. intros u ->%list_elem_of_singleton. by apply leb_refl.
  - destruct (IH (fmax acc v)) as [Hfin Hle]; [by apply fmax_finite|].
    split; [done|]. intros u Hu.
    assert ((fmax acc v <=? foldl fmax (fmax acc v) vs)%float = true) as Hm
      by (apply Hle; left).
    assert ((acc <=? fmax acc v)%float = true
            ∧ (v <=? fmax acc v)%float = true)
      as [Hma Hmv].
    { unfold fmax. destruct (acc <? v)%float eqn:Hlt.
      - split; [by apply ltb_true_leb|by apply leb_refl].
      - split; [by apply leb_refl|by apply ltb_false_leb]. }
    pose proof (fmax_finite acc v Hacc Hv) as Hfm.
    apply elem_of_cons in Hu as [->|[->|Hu]%elem_of_cons].
    + by apply (leb_trans _ (fmax acc v)).
    + by apply (leb_trans _ (fmax acc v)).
    + apply Hle. by right.
Qed.

Lemma filter_notna_finite vals :
  Forall (λ v, is_finite v = true) vals →
  filter (λ v, notna v = true) vals = vals.
Proof.
  induction 1 as [|v vals Hv _ IH]; [done|].
  by rewrite filter_cons_True, IH by by apply notna_finite.
Qed.

(** Of finite values whose maximum equals their minimum, the minimum is
    finite and each value is at its place. *)
Lemma series_zero_range vals :
  Forall (λ v, is_finite v = true) vals →
  (series_max vals =? series_min vals)%float = true →
  is_finite (series_max vals) = true ∧ is_finite (series_min vals) = true ∧
  fkey (series_max vals) = fkey (series_min vals) ∧
  ∀ u, u ∈ vals → fkey u = fkey (series_min vals).
Proof.
  intros Hfin. unfold series_max, series_min.
  rewrite filter_notna_finite by done.
  destruct Hfin as [|v vs Hv Hvs]; [done|]. intros Heq.
  destruct (foldl_fmin_spec vs v Hv Hvs) as [Hmn Hle].
  destruct (foldl_fmax_spec vs v Hv Hvs) as [Hmx Hge].
  assert (∀ u, u ∈ v :: vs → is_finite u = true) as Hin.
  { by apply Forall_forall, Forall_cons. }
  split; [done|]. split; [done|]. split.
  - by apply eqb_same_key.
  - intros u Hu. apply (same_place (foldl fmax v vs)); auto.
Qed.

Lemma fraction_later_cut p :
  (0 <? p)%float = true → (p <? 1)%float = true → later_cut (FloatCut p).
Proof.
  unfold later_cut. cbn [cut_val].
  rewrite is_finite_spec, !FloatAxioms.ltb_spec, FloatAxioms.eqb_spec.
  replace (Prim2SF 0) with (S754_zero false) by reflexivity.
  replace (Prim2SF 1) with (S754_finite false 4503599627370496 (-52))
    by reflexivity.
  by destruct (Prim2SF p) as [[]|[]| |[] m e].
Qed.

Lemma one_later_cut : later_cut (IntCut 1).
Proof. split; reflexivity. Qed.

Lemma sort_insert_Forall (P : float → Prop) x l :
  P x → Forall P l → Forall P (sort_insert x l).
Proof.
  intros Hx. induction 1 as [|y l Hy Hl IH]; cbn [sort_insert].
  - by constructor.
  - destruct (sorts_before x y); repeat (constructor; try done).
Qed.

Lemma np_sort_Forall (P : float → Prop) ps : Forall P ps → Forall P (np_sort ps).
Proof.
  induction 1 as [|p ps Hp _ IH]; [constructor|].
  by apply sort_insert_Forall.
Qed.

Section zero_range.
Context {K : Type} (float_str : float → string).
Context (data : list (K * float)).
Hypothesis data_finite : Forall (λ r, is_finite r.2 = true) data.
Hypothesis zero_range :
  (series_max data.*2 =? series_min data.*2)%float = true.

Local Abbreviation data_min := (series_min data.*2).
Local Abbreviation data_range :=
  (series_max data.*2 - series_min data.*2)%float.

Lemma values_finite : Forall (λ v, is_finite v = true) data.*2.
Proof. by apply Forall_fmap. Qed.

(** Every threshold is at the place of the minimum. *)
Lemma threshold_zero_range (c : cut) :
  is_finite (cut_val c) = true →
  is_finite (threshold data_min data_range c) = true ∧
  fkey (threshold data_min data_range c) = fkey data_min.
Proof.
  intros Hc%is_finite_spec.
  destruct (series_zero_range _ values_finite zero_range)
    as (Hmx & Hmn & Hkey & _).
  destruct (sub_same_key _ _ (proj1 (is_finite_spec _) Hmx)
              (proj1 (is_finite_spec _) Hmn) Hkey) as [s Hs].
  destruct (mul_zero_l _ _ _ Hs Hc) as [s' Hs'].
  destruct (add_zero_r data_min _ s' (proj1 (is_finite_spec _) Hmn) Hs')
    as [Hfin Hk].
  split; [by apply is_finite_spec|done].
Qed.

Lemma in_range_zero_range (tr tr2 : cut) (r : K * float) :
  is_finite (cut_val tr) = true → is_finite (cut_val tr2) = true →
  r ∈ data →
  in_range data_min data_range tr tr2 r.2 = (cut_val tr =? 0)%float.
Proof.
  intros Htr Htr2 Hr.
  destruct (series_zero_range _ values_finite zero_range)
    as (_ & Hmn & _ & Hplace).
  assert (fkey r.2 = fkey data_min) as Hv.
  { apply Hplace. by apply list_elem_of_fmap_2. }
  assert (is_finite r.2 = true) as Hfin.
  { by apply (proj1 (Forall_forall _ _) data_finite). }
  destruct (threshold_zero_range tr Htr) as [Hlo Hklo].
  destruct (threshold_zero_range tr2 Htr2) as [Hhi Hkhi].
  unfold in_range.
  pose proof (fkey_finite _ Hmn) as [a Ha].
  rewrite Ha in Hv, Hklo, Hkhi.
  assert ((threshold data_min data_range tr <=? r.2)%float = true) as ->.
  { rewrite (leb_key _ _ a a Hklo Hv). apply lexlt_irrefl. }
  assert ((r.2 <=? threshold data_min data_range tr2)%float = true) as ->.
  { rewrite (leb_key _ _ a a Hv Hkhi). apply lexlt_irrefl. }
  assert ((threshold data_min data_range tr <? r.2)%float = false) as ->.
  { apply not_true_iff_false. rewrite (ltb_key _ _ a a Hklo Hv).
    apply lexlt_irrefl. }
  by destruct (cut_val tr =? 0)%float.
Qed.

Lemma linear_ranges_loop_later (tr : cut) (cuts : list cut) :
  later_cut tr → Forall later_cut cuts →
  linear_ranges_loop float_str data data_min data_range tr cuts =
  (λ _, []) <$> cuts.
Proof.
  intros Htr Hcuts. revert tr Htr.
  induction Hcuts as [|tr2 cuts Htr2 _ IH]; intros tr Htr; [done|].
  cbn [linear_ranges_loop fmap list_fmap]. rewrite IH by done. f_equal.
  replace (filter _ data) with (@nil (K * float)); [done|].
  symmetry. apply elem_of_nil_inv. intros r [Hin Hr]%list_elem_of_filter.
  rewrite in_range_zero_range in Hin by (done || apply Htr || apply Htr2).
  destruct Htr as [_ Htr]. congruence.
Qed.

Lemma linear_ranges_loop_first (tr2 : cut) (cuts : list cut) :
  later_cut tr2 → Forall later_cut cuts →
  linear_ranges_loop float_str data data_min data_range (IntCut 0)
    (tr2 :: cuts) =
  constant_series (range_label float_str (IntCut 0) tr2) data.*1
    :: ((λ _, []) <$> cuts).
Proof.
  intros Htr2 Hcuts. cbn [linear_ranges_loop].
  rewrite linear_ranges_loop_later by done. do 3 f_equal.
  apply filter_all. intros r Hr.
  rewrite in_range_zero_range by (done || apply Htr2). reflexivity.
Qed.

(** C10, for finite values: when the maximum of the values equals their
    minimum, every sample gets the label of the first interval, and no
    other interval has a sample. *)
Theorem to_linear_ranges_zero_range (ps : list float) :
  Forall (λ p, (0 <? p)%float = true ∧ (p <? 1)%float = true) ps →
  ∃ tr2 cuts,
    ((FloatCut <$> np_sort ps) ++ [IntCut 1])%list = tr2 :: cuts ∧
    linear_ranges_ann float_str data ps =
      constant_series (range_label float_str (IntCut 0) tr2) data.*1
        :: ((λ _, []) <$> cuts) ∧
    to_linear_ranges float_str data ps =
      constant_series (range_label float_str (IntCut 0) tr2) data.*1.
Proof.
  intros Hps.
  assert (Forall later_cut ((FloatCut <$> np_sort ps) ++ [IntCut 1])%list)
    as Hcuts.
  { apply Forall_app. split.
    - apply Forall_fmap, np_sort_Forall.
      eapply Forall_impl; [exact Hps|]. intros p [H0 H1].
      by apply fraction_later_cut.
    - apply Forall_singleton, one_later_cut. }
  unfold to_linear_ranges, linear_ranges_ann.
  destruct ((FloatCut <$> np_sort ps) ++ [IntCut 1])%list
    as [|tr2 cuts] eqn:Hc.
  { by apply app_nil in Hc as [_ ?]. }
  apply Forall_cons in Hcuts as [Htr2 Hcuts].
  exists tr2, cuts. split; [done|].
  rewrite linear_ranges_loop_first by done. split; [done|].
  cbn [concat]. replace (concat ((λ _, []) <$> cuts)) with (@nil (K * string)).
  - by rewrite app_nil_r.
  - clear. induction cuts as [|c cuts IH]; [done|]. by cbn.
Qed.
End zero_range.


Lemma filter_split {A} (P Q R : A → Prop)
    `{!∀ x, Decision (P x), !∀ x, Decision (Q x), !∀ x, Decision (R x)}
    (l : list A) :
  (∀ x, x ∈ l → (P x ∨ Q x ↔ R x) ∧ ¬ (P x ∧ Q x)) →
  filter P l ++ filter Q l ≡ₚ filter R l.
Proof.
  induction l as [|x l IH]; intros Hx; [done|].
  destruct (Hx x) as [Hiff Hdisj]; [left|].
  rewrite !filter_cons.
  assert (filter P l ++ filter Q l ≡ₚ filter R l) as IH'.
  { apply IH. intros y Hy. apply Hx. by right. }
  destruct (decide (P x)), (decide (Q x)), (decide (R x)); try tauto.
  - cbn. by rewrite IH'.
  - rewrite <-Permutation_middle. by rewrite IH'.
Qed.

Section ordered_thresholds.
Context {K : Type} (float_str : float → string).
Context (data : list (K * float)) (data_min data_range : float).
Hypothesis data_finite : Forall (λ r, is_finite r.2 = true) data.

Local Abbreviation T := (threshold data_min data_range).
Local Abbreviation between := (rows_between data data_min data_range).
Local Abbreviation ordered_cuts := (thresholds_ordered data_min data_range).

Lemma ordered_cuts_finite tr cuts :
  ordered_cuts tr cuts → is_finite (T tr) = true.
Proof. destruct cuts; by intros []. Qed.

Lemma ordered_cuts_last tr cuts :
  ordered_cuts tr cuts →
  is_finite (T (last_cut tr cuts)) = true ∧
  (T tr <=? T (last_cut tr cuts))%float = true.
Proof.
  revert tr. induction cuts as [|tr2 cuts IH]; intros tr.
  - intros [Hfin _]. split; [done|]. by apply leb_refl.
  - intros (Hfin & Hle & Hrest). destruct (IH tr2 Hrest) as [Hlast Hle'].
    cbn [last_cut]. split; [done|].
    apply (leb_trans _ (T tr2)); try done.
    by apply (ordered_cuts_finite tr2 cuts).
Qed.

(** From a cut other than 0 on, the loop labels, each once, the samples
    above its threshold and up to the last. *)
Lemma linear_ranges_loop_between tr tr2 cuts :
  (cut_val tr =? 0)%float = false →
  Forall later_cut (tr2 :: cuts) →
  ordered_cuts tr (tr2 :: cuts) →
  (concat (linear_ranges_loop float_str data data_min data_range tr
             (tr2 :: cuts))).*1
  ≡ₚ (between tr (last_cut tr2 cuts)).*1.
Proof.
  revert tr tr2. induction cuts as [|tr3 cuts IH]; intros tr tr2 Htr Hlater Hord.
  - cbn [linear_ranges_loop concat last_cut]. rewrite app_nil_r.
    rewrite constant_series_index.
    unfold between, in_range. by rewrite Htr.
  - cbn [linear_ranges_loop concat]. rewrite fmap_app.
    apply Forall_cons in Hlater as [[_ Htr2] Hlater].
    destruct Hord as (Hfin & Hle & Hord).
    rewrite (IH tr2 tr3) by done. cbn [last_cut].
    rewrite constant_series_index.
    rewrite <-fmap_app. f_equiv. unfold between.
    destruct (ordered_cuts_last tr2 (tr3 :: cuts) Hord) as [Hlast Hle'].
    cbn [last_cut] in Hlast, Hle'.
    pose proof (ordered_cuts_finite _ _ Hord) as Hfin2.
    apply filter_split. intros r Hr.
    assert (is_finite r.2 = true) as Hv
      by by apply (proj1 (Forall_forall _ _) data_finite).
    unfold in_range. rewrite Htr, !andb_true_iff.
    generalize dependent (T tr). generalize dependent (T tr2).
    generalize dependent (T (last_cut tr3 cuts)). generalize dependent (r.2).
    intros v Hv t3 Ht3 t2 Hle' Ht2 t1 Ht1 Hle. clear -Hv Ht3 Ht2 Ht1 Hle Hle'.
    float_keys. lia.
Qed.

Lemma last_cut_app tr cuts c : last_cut tr (cuts ++ [c]) = c.
Proof. revert tr. induction cuts as [|c' cuts IH]; intros tr; [done|]. apply IH. Qed.

(** From the cut 0 on, the loop labels, each once, the samples from the
    first threshold up to the last. *)
Lemma linear_ranges_loop_from_zero tr2 cuts :
  Forall later_cut (tr2 :: cuts) →
  ordered_cuts (IntCut 0) (tr2 :: cuts) →
  (∀ r, r ∈ data →
     (T (IntCut 0) <=? r.2)%float = true ∧
     (r.2 <=? T (last_cut tr2 cuts))%float = true) →
  (concat (linear_ranges_loop float_str data data_min data_range (IntCut 0)
             (tr2 :: cuts))).*1
  ≡ₚ data.*1.
Proof.
  intros Hlater (Hfin & Hle & Hord) Hall.
  cbn [linear_ranges_loop concat]. rewrite fmap_app, constant_series_index.
  pose proof (proj1 (Forall_cons _ _ _) Hlater) as [[_ Htr2] Hlater'].
  assert (∀ r, r ∈ data → is_finite r.2 = true) as Hdata
    by by apply Forall_forall.
  destruct (ordered_cuts_last tr2 cuts Hord) as [Hlast Hle'].
  pose proof (ordered_cuts_finite _ _ Hord) as Hfin2.
  destruct cuts as [|tr3 cuts].
  - cbn [linear_ranges_loop concat fmap list_fmap]. rewrite app_nil_r.
    rewrite filter_all; [done|]. intros r Hr. unfold in_range.
    change (cut_val (IntCut 0) =? 0)%float with true. cbv iota.
    destruct (Hall r Hr) as [Hlo Hhi]. cbn [last_cut] in Hhi.
    by apply andb_true_iff.
  - rewrite linear_ranges_loop_between by done.
    rewrite <-fmap_app. f_equiv. unfold between.
    rewrite <-(filter_all (λ _, True) data) at 3 by done.
    apply filter_split. intros r Hr.
    destruct (Hall r Hr) as [Hlo Hhi]. specialize (Hdata r Hr).
    unfold in_range. change (cut_val (IntCut 0) =? 0)%float with true.
    cbv iota. rewrite !andb_true_iff.
    cbn [last_cut] in *.
    set (v := r.2) in *. set (t1 := T (IntCut 0)) in *.
    set (t2 := T tr2) in *. set (t3 := T (last_cut tr3 cuts)) in *.
    clearbody v t1 t2 t3. clear -Hdata Hlast Hfin2 Hfin Hle Hle' Hlo Hhi.
    float_keys. lia.
Qed.
End ordered_thresholds.


Lemma threshold_zero_cut (mn rng : float) :
  is_finite mn = true →
  is_finite (threshold mn rng (IntCut 0)) = true →
  fkey (threshold mn rng (IntCut 0)) = fkey mn.
Proof.
  unfold threshold. change (cut_val (IntCut 0)) with 0%float.
  intros Hmn%is_finite_spec Hfin%is_finite_spec.
  assert (Prim2SF (rng * 0) = S754_nan ∨ ∃ s, Prim2SF (rng * 0) = S754_zero s)
    as [Hnan|[s Hs]].
  { rewrite mul_spec. change (Prim2SF 0) with (S754_zero false).
    destruct (Prim2SF rng) as [[]|[]| |[] m e]; cbn; eauto. }
  - rewrite add_spec, Hnan in Hfin. by destruct (Prim2SF mn) as [[]|[]| |[] m e].
  - by apply (add_zero_r mn _ s).
Qed.

Section partition.
Context {K : Type} (float_str : float → string).
Context (data : list (K * float)).
Hypothesis data_finite : Forall (λ r, is_finite r.2 = true) data.

Local Abbreviation data_min := (series_min data.*2).
Local Abbreviation data_range :=
  (series_max data.*2 - series_min data.*2)%float.

(** When the thresholds are finite and do not decrease, and the last
    one is not below the maximum, the labelled samples are the samples,
    each once. *)
Lemma to_linear_ranges_partition (ps : list float) :
  Forall (λ p, (0 <? p)%float = true ∧ (p <? 1)%float = true) ps →
  thresholds_ordered data_min data_range (IntCut 0)
    ((FloatCut <$> np_sort ps) ++ [IntCut 1])%list →
  (series_max data.*2 <=? threshold data_min data_range (IntCut 1))%float
    = true →
  (to_linear_ranges float_str data ps).*1 ≡ₚ data.*1.
Proof.
  intros Hps Hord Htop.
  assert (Forall later_cut ((FloatCut <$> np_sort ps) ++ [IntCut 1])%list)
    as Hcuts.
  { apply Forall_app. split.
    - apply Forall_fmap, np_sort_Forall.
      eapply Forall_impl; [exact Hps|]. intros p [H0 H1].
      by apply fraction_later_cut.
    - apply Forall_singleton, one_later_cut. }
  unfold to_linear_ranges, linear_ranges_ann.
  pose proof (last_cut_app (IntCut 0) (FloatCut <$> np_sort ps) (IntCut 1))
    as Hlast.
  destruct ((FloatCut <$> np_sort ps) ++ [IntCut 1])%list
    as [|tr2 cuts] eqn:Hc.
  { by apply app_nil in Hc as [_ ?]. }
  cbn [last_cut] in Hlast.
  apply linear_ranges_loop_from_zero; [done..|].
  rewrite Hlast. intros r Hr.
  pose proof (ordered_cuts_finite _ _ _ _ Hord) as Hfin0.
  destruct (ordered_cuts_last _ _ _ _ Hord) as [Hfin1 _].
  cbn [last_cut] in Hfin1. rewrite Hlast in Hfin1.
  pose proof (values_finite data data_finite) as Hvals.
  assert (r.2 ∈ data.*2) as Hv by by apply list_elem_of_fmap_2.
  unfold series_max, series_min in *.
  rewrite filter_notna_finite in * by done.
  destruct (data.*2) as [|v vs]; [by apply elem_of_nil in Hv|].
  apply Forall_cons in Hvals as [Hv0 Hvs].
  destruct (foldl_fmin_spec vs v Hv0 Hvs) as [Hmn Hle].
  destruct (foldl_fmax_spec vs v Hv0 Hvs) as [Hmx Hge].
  pose proof (threshold_zero_cut _ _ Hmn Hfin0) as Hkey.
  specialize (Hle _ Hv). specialize (Hge _ Hv).
  assert (is_finite r.2 = true) as Hfin
    by by apply (proj1 (Forall_forall _ _) data_finite).
  split.
  - pose proof (fkey_finite _ Hmn) as [a Ha]. rewrite Ha in Hkey.
    pose proof (fkey_finite _ Hfin) as [b Hb].
    rewrite (leb_key _ _ a b Hkey Hb).
    by rewrite (leb_key _ _ a b Ha Hb) in Hle.
  - by apply (leb_trans _ (foldl fmax v vs)).
Qed.
End partition.

(** The values of the specification are in this case. *)
Lemma to_linear_ranges_partition_quarters :
  (to_linear_ranges exact_decimal data_quarters [0.5%float]).*1
  ≡ₚ data_quarters.*1.
Proof.
  apply to_linear_ranges_partition.
  - by repeat constructor.
  - by repeat constructor.
  - by repeat split.
  - reflexivity.
Qed.

Lemma to_linear_ranges_zero_range_witness :
  Forall (λ r, is_finite r.2 = true) data_flat ∧
  (series_max data_flat.*2 =? series_min data_flat.*2)%float = true ∧
  Forall (λ p, (0 <? p)%float = true ∧ (p <? 1)%float = true)
    [0.5; 0.25]%float ∧
  ∃ tr2 cuts,
    ((FloatCut <$> np_sort [0.5; 0.25]%float) ++ [IntCut 1])%list
      = tr2 :: cuts ∧
    linear_ranges_ann exact_decimal data_flat [0.5; 0.25]%float =
      constant_series (range_label exact_decimal (IntCut 0) tr2) data_flat.*1
        :: ((λ _, []) <$> cuts) ∧
    to_linear_ranges exact_decimal data_flat [0.5; 0.25]%float =
      constant_series (range_label exact_decimal (IntCut 0) tr2) data_flat.*1.
Proof.
  assert (Forall (λ r : Z * float, is_finite r.2 = true) data_flat) as Hfin
    by (repeat constructor).
  assert (Forall (λ p, (0 <? p)%float = true ∧ (p <? 1)%float = true)
            [0.5; 0.25]%float) as Hps by (repeat constructor).
  split; [exact Hfin|]. split; [reflexivity|]. split; [exact Hps|].
  exact (to_linear_ranges_zero_range exact_decimal data_flat Hfin eq_refl
           [0.5; 0.25]%float Hps).
Defined.

(** C10, as the specification states it, fails: of a value and a missing
    one, the maximum equals the minimum, and the sample with the missing
    value gets no label. *)
Lemma to_linear_ranges_missing_value :
  (series_max data_missing.*2 =? series_min data_missing.*2)%float = true ∧
  to_linear_ranges exact_decimal data_missing [0.5%float] =
  [(0%Z, "0p<x<0.5p")].
Proof. split; vm_compute; reflexivity. Qed.

(** Nor does a sample of an infinite value get a label: the range of
    the values is then NaN. *)
Lemma to_linear_ranges_infinite_value :
  (series_max data_infinite.*2 =? series_min data_infinite.*2)%float = true ∧
  to_linear_ranges exact_decimal data_infinite [0.5%float] = [].
Proof. split; vm_compute; reflexivity. Qed.

(** C5: for the values [0, 25, 50, 75, 100] and the cut point 0.5, which
    [str] prints as [0.5], the samples of 0, 25 and 50 are labelled
    [0p<x<0.5p] and the samples of 75 and 100 [0.5p<x<1p]. *)
Theorem to_linear_ranges_quarters (float_str : float → string) :
  float_str 0.5%float = "0.5" →
  to_linear_ranges float_str data_quarters [0.5%float] =
  [(0%Z, "0p<x<0.5p"); (1%Z, "0p<x<0.5p"); (2%Z, "0p<x<0.5p");
   (3%Z, "0.5p<x<1p"); (4%Z, "0.5p<x<1p")].
Proof.
  intros Hstr.
  assert (range_label float_str (IntCut 0) (FloatCut 0.5) = "0p<x<0.5p")
    as Hfirst by (unfold range_label; cbn [cut_str]; by rewrite Hstr).
  assert (range_label float_str (FloatCut 0.5) (IntCut 1) = "0.5p<x<1p")
    as Hsecond by (unfold range_label; cbn [cut_str]; by rewrite Hstr).
  rewrite <-Hfirst, <-Hsecond. vm_compute. reflexivity.
Qed.

Lemma to_linear_ranges_quarters_witness :
  exact_decimal 0.5%float = "0.5" ∧
  to_linear_ranges exact_decimal data_quarters [0.5%float] =
  [(0%Z, "0p<x<0.5p"); (1%Z, "0p<x<0.5p"); (2%Z, "0p<x<0.5p");
   (3%Z, "0.5p<x<1p"); (4%Z, "0.5p<x<1p")].
Proof.
  split; [reflexivity|].
  apply (to_linear_ranges_quarters exact_decimal). reflexivity.
Defined.

(** C4 at the values [0.2, 0.9] and the cut point 0.5: no value is
    missing, and the sample of the maximum is in no interval, because
    [data.min() + data_range * 1] is rounded below [data.max()].  The
    labels of the result are not the whole index. *)
Theorem to_linear_ranges_tenths (float_str : float → string) :
  Forall (λ r, is_finite r.2 = true) data_tenths ∧
  (threshold (series_min data_tenths.*2)
     (series_max data_tenths.*2 - series_min data_tenths.*2) (IntCut 1)
   <? series_max data_tenths.*2)%float = true ∧
  to_linear_ranges float_str data_tenths [0.5%float] =
  [(0%Z, range_label float_str (IntCut 0) (FloatCut 0.5))].
Proof.
  split; [by repeat constructor|]. split; [reflexivity|].
  vm_compute. reflexivity.
Qed.

(** * Further properties *)

(** ** Gene sets: errors, the catalogue and the text of a gene set *)

Lemma split_not_nil sep s : split sep s ≠ [].
Proof.
  induction s as [|c s IH]; [done|]. cbn.
  destruct (Ascii.eqb c sep); [done|]. by destruct (split sep s).
Qed.

(** The outcome of one line: a new entry, or an [IndexError]. *)
Lemma read_gene_set_line_cases o m line :
  (∃ n d ms, split tab (strip line) = n :: d :: ms ∧
     read_gene_set_line o m line =
     Returns [] (<[strip n := GeneSet_init o (strip n) (strip d)
                     (PySet (list_to_set (strip <$> ms)))]> m)) ∨
  ((length (split tab (strip line)) < 2)%nat ∧
     read_gene_set_line o m line = Raises [] IndexError).
Proof.
  unfold read_gene_set_line.
  destruct (split tab (strip line)) as [|n [|d ms]] eqn:Hs.
  - right. split; [cbn; lia|done].
  - right. split; [cbn; lia|done].
  - left. by exists n, d, ms.
Qed.

Lemma read_gene_sets_loop_app o m pre post :
  read_gene_sets_loop o m (pre ++ post) =
  read_gene_sets_loop o m pre ≫= λ m', read_gene_sets_loop o m' post.
Proof.
  revert m. induction pre as [|line pre IH]; intros m.
  - cbn [app read_gene_sets_loop]. by rewrite Py_bind_ret.
  - cbn [app read_gene_sets_loop].
    destruct (read_gene_set_line_cases o m line)
      as [(n & d & ms & _ & ->)|[_ ->]]; [|done].
    change (Returns [] ?x) with (mret (M:=Py) x). rewrite !Py_bind_ret.
    apply IH.
Qed.

Lemma read_gene_sets_loop_outcome o m handle :
  (Forall (λ line, (2 ≤ length (split tab (strip line)))%nat) handle ∧
   ∃ m', read_gene_sets_loop o m handle = Returns [] m') ∨
  (Exists (λ line, (length (split tab (strip line)) < 2)%nat) handle ∧
   read_gene_sets_loop o m handle = Raises [] IndexError).
Proof.
  revert m. induction handle as [|line rest IH]; intros m.
  - left. split; [constructor|]. by exists m.
  - cbn [read_gene_sets_loop].
    destruct (read_gene_set_line_cases o m line)
      as [(n & d & ms & Hs & ->)|[Hlen ->]].
    + change (Returns [] ?x) with (mret (M:=Py) x). rewrite Py_bind_ret.
      destruct (IH (<[strip n := GeneSet_init o (strip n) (strip d)
                        (PySet (list_to_set (strip <$> ms)))]> m))
        as [[Hall Hret]|[Hex Hraise]].
      * left. split; [|done]. constructor; [|done]. rewrite Hs. cbn. lia.
      * right. split; [by right|done].
    + right. split; [by left|done].
Qed.

(** X1: [read_gene_sets] raises exactly when some line of the file,
    stripped, has fewer than two tab-separated fields (a blank line is
    one), and then what it raises is the [IndexError] of [items[1]]; it
    returns a catalogue exactly when every line has at least two
    fields.  It gives no warning either way. *)
Theorem read_gene_sets_raises_iff (o : set_order) (handle : list string) :
  (read_gene_sets o handle = Raises [] IndexError ↔
   ∃ line, line ∈ handle ∧ (length (split tab (strip line)) < 2)%nat) ∧
  ((∃ gene_sets, read_gene_sets o handle = Returns [] gene_sets) ↔
   ∀ line, line ∈ handle → (2 ≤ length (split tab (strip line)))%nat) ∧
  (∀ w e, read_gene_sets o handle = Raises w e → w = [] ∧ e = IndexError) ∧
  (∀ w gene_sets, read_gene_sets o handle = Returns w gene_sets → w = []).
Proof.
  unfold read_gene_sets.
  destruct (read_gene_sets_loop_outcome o ∅ handle)
    as [[Hall [m' Hret]]|[Hex Hraise]].
  - rewrite Hret. rewrite Forall_forall in Hall.
    split; [|split; [|split]].
    + split; [done|]. intros (line & Hin & Hlen).
      specialize (Hall line Hin). lia.
    + split; [done|]. intros _. by exists m'.
    + done.
    + by intros ?? [= <- _].
  - rewrite Hraise. rewrite Exists_exists in Hex.
    split; [|split; [|split]].
    + done.
    + split; [by intros [? [=]]|]. intros Hall.
      destruct Hex as (line & Hin & Hlen). specialize (Hall line Hin). lia.
    + by intros ?? [= <- <-].
    + done.
Qed.

Lemma read_gene_sets_loop_returns_cons o m line rest w m' :
  read_gene_sets_loop o m (line :: rest) = Returns w m' →
  ∃ n d ms, split tab (strip line) = n :: d :: ms ∧
    read_gene_sets_loop o
      (<[strip n := GeneSet_init o (strip n) (strip d)
           (PySet (list_to_set (strip <$> ms)))]> m) rest = Returns w m'.
Proof.
  cbn [read_gene_sets_loop].
  destruct (read_gene_set_line_cases o m line)
    as [(n & d & ms & Hs & ->)|[_ ->]]; [|done].
  change (Returns [] ?x) with (mret (M:=Py) x). rewrite Py_bind_ret.
  intros Hret. by exists n, d, ms.
Qed.

(** The lines that follow do not touch the entries of other names. *)
Lemma read_gene_sets_loop_lookup o m handle w m' k :
  read_gene_sets_loop o m handle = Returns w m' →
  (∀ line, line ∈ handle → line_name line ≠ Some k) →
  m' !! k = m !! k.
Proof.
  revert m. induction handle as [|line rest IH]; intros m Hret Hother.
  - by injection Hret as _ <-.
  - apply read_gene_sets_loop_returns_cons in Hret
      as (n & d & ms & Hs & Hret).
    rewrite (IH _ Hret) by (intros l Hl; apply Hother; by right).
    apply lookup_insert_ne. intros Hk.
    apply (Hother line); [by left|]. unfold line_name. by rewrite Hs, <-Hk.
Qed.

(** X2: when the file is read, the gene set stored under a name is
    the one of the last line with that name, built from the stripped
    description of that line and from the set of its stripped members:
    an earlier line with the same name is overwritten. *)
Theorem read_gene_sets_last_wins (o : set_order)
    (before after : list string) (line n d : string) (members : list string)
    (w : list string) (gene_sets : gmap string GeneSet) :
  read_gene_sets o (before ++ line :: after) = Returns w gene_sets →
  split tab (strip line) = n :: d :: members →
  (∀ l, l ∈ after → line_name l ≠ Some (strip n)) →
  gene_sets !! strip n =
  Some (GeneSet_init o (strip n) (strip d)
          (PySet (list_to_set (strip <$> members)))).
Proof.
  unfold read_gene_sets. rewrite read_gene_sets_loop_app.
  intros Hret Hs Hafter.
  apply Py_bind_returns_inv in Hret as (w1 & m1 & w2 & _ & Hret & _).
  apply read_gene_sets_loop_returns_cons in Hret
    as (n' & d' & ms' & Hs' & Hret).
  rewrite Hs in Hs'. injection Hs' as <- <- <-.
  rewrite (read_gene_sets_loop_lookup _ _ _ _ _ _ Hret Hafter).
  apply lookup_insert_eq.
Qed.

Lemma read_gene_sets_loop_catalogue o m handle w m' :
  read_gene_sets_loop o m handle = Returns w m' →
  dom m' = dom m ∪ list_to_set (omap line_name handle) ∧
  ((∀ k g, m !! k = Some g →
      name g = k ∧ NoDup (genes_ordered g) ∧
      ∀ x, x ∈ genes_ordered g ↔ x ∈ genes g) →
   ∀ k g, m' !! k = Some g →
      name g = k ∧ NoDup (genes_ordered g) ∧
      ∀ x, x ∈ genes_ordered g ↔ x ∈ genes g).
Proof.
  revert m. induction handle as [|line rest IH]; intros m Hret.
  - injection Hret as _ <-. split; [|done].
    cbn [omap list_omap]. by rewrite list_to_set_nil, (right_id_L ∅ (∪)).
  - apply read_gene_sets_loop_returns_cons in Hret
      as (n & d & ms & Hs & Hret).
    destruct (IH _ Hret) as [Hdom Hinv]. split.
    + assert (omap line_name (line :: rest)
              = strip n :: omap line_name rest) as ->.
      { cbn [omap list_omap]. unfold line_name at 1. by rewrite Hs. }
      rewrite Hdom, dom_insert_L, list_to_set_cons.
      by rewrite (assoc_L (∪)), (comm_L (∪) (dom m)).
    + intros Hm. apply Hinv. intros k g.
      rewrite lookup_insert. case_decide as Hk; [|by apply Hm].
      intros [= <-]. subst k. cbn. split; [done|]. split.
      * apply set_list_NoDup.
      * intros x. by rewrite set_list_elem_of, list_to_set_set_list.
Qed.

(** X3: the keys of the catalogue that [read_gene_sets] returns are
    the stripped first fields of the lines of the file; each gene set is
    stored under its own name, and its ordered genes are its genes, each
    once. *)
Theorem read_gene_sets_catalogue (o : set_order) (handle : list string)
    (w : list string) (gene_sets : gmap string GeneSet) :
  read_gene_sets o handle = Returns w gene_sets →
  dom gene_sets = list_to_set (omap line_name handle) ∧
  ∀ k g, gene_sets !! k = Some g →
    name g = k ∧ NoDup (genes_ordered g) ∧
    ∀ x, x ∈ genes_ordered g ↔ x ∈ genes g.
Proof.
  intros Hret.
  destruct (read_gene_sets_loop_catalogue o ∅ handle w gene_sets Hret)
    as [Hdom Hinv].
  split; [by rewrite Hdom, dom_empty_L, (left_id_L ∅ (∪))|].
  apply Hinv. intros k g. by rewrite lookup_empty.
Qed.


(** The text of a gene set, read back: facts about the strings. *)

Lemma split_tab_app s r :
  split tab s = [s] → split tab (s +:+ String tab r) = s :: split tab r.
Proof.
  induction s as [|c s IH]; [done|]. simpl.
  destruct (Ascii.eqb c tab); [done|].
  destruct (split tab s) as [|f fs] eqn:Hs;
    [by destruct (split_not_nil tab s)|].
  intros [= -> ->]. by rewrite IH.
Qed.

Lemma split_tab_join l :
  l ≠ [] → Forall (λ s, split tab s = [s]) l → split tab (join tab l) = l.
Proof.
  intros Hne Hl. induction Hl as [|s l Hs Hl IH]; [done|].
  destruct l as [|s' l]; [done|].
  change (join tab (s :: s' :: l))
    with (s +:+ String tab (join tab (s' :: l))).
  by rewrite split_tab_app, IH.
Qed.

Lemma length_rstrip s : (String.length (rstrip s) ≤ String.length s)%nat.
Proof.
  induction s as [|c s IH]; [done|]. cbn.
  destruct (rstrip s); [|cbn in *; lia].
  destruct (isspace c); cbn; lia.
Qed.

Lemma lstrip_cases s :
  lstrip s = s ∨ (String.length (lstrip s) < String.length s)%nat.
Proof.
  induction s as [|c s IH]; [by left|]. cbn.
  destruct (isspace c); [|by left]. right. destruct IH as [->|]; lia.
Qed.

Lemma strip_fixed s : strip s = s → lstrip s = s ∧ rstrip s = s.
Proof.
  unfold strip. intros Hs.
  destruct (lstrip_cases s) as [Hl|Hl]; [by rewrite Hl in Hs|].
  pose proof (length_rstrip (lstrip s)) as Hr. rewrite Hs in Hr. lia.
Qed.

Lemma lstrip_app a r : a ≠ "" → lstrip a = a → lstrip (a +:+ r) = a +:+ r.
Proof.
  destruct a as [|c a]; [done|]. intros _. simpl.
  destruct (isspace c); [|done]. intros Ha.
  destruct (lstrip_cases a) as [Hl|Hl];
    apply (f_equal String.length) in Ha; cbn in Ha; [rewrite Hl in Ha|]; lia.
Qed.

Lemma rstrip_app r z : z ≠ "" → rstrip z = z → rstrip (r +:+ z) = r +:+ z.
Proof.
  intros Hne Hz. induction r as [|c r IH]; [done|].
  change (String c r +:+ z) with (String c (r +:+ z)).
  cbn [rstrip]. rewrite IH.
  assert (r +:+ z ≠ "") as Hrz by by destruct r, z.
  by destruct (r +:+ z).
Qed.

Lemma rstrip_app_space r t : rstrip t = "" → rstrip (r +:+ t) = rstrip r.
Proof. intros Ht. induction r as [|c r IH]; [done|]. simpl. by rewrite IH. Qed.

Lemma append_cons c (s r : string) : String c s +:+ r = String c (s +:+ r).
Proof. reflexivity. Qed.

Lemma append_assoc (s1 s2 s3 : string) :
  (s1 +:+ s2) +:+ s3 = s1 +:+ (s2 +:+ s3).
Proof.
  induction s1 as [|c s1 IH]; [done|]. rewrite !append_cons. by f_equal.
Qed.

Lemma strip_between a r z :
  a ≠ "" → strip a = a → z ≠ "" → strip z = z →
  strip (a +:+ r +:+ z) = a +:+ r +:+ z.
Proof.
  intros Ha [Hla _]%strip_fixed Hz [_ Hrz]%strip_fixed. unfold strip.
  rewrite lstrip_app by done.
  by rewrite <-append_assoc, rstrip_app.
Qed.

Lemma join_ends (a : string) (l : list string) (z : string) :
  ∃ r, join tab (a :: l ++ [z]) = a +:+ r +:+ z.
Proof.
  revert a. induction l as [|s l IH]; intros a; [by exists (String tab "")|].
  destruct (IH s) as [r Hr]. exists (String tab (s +:+ r)).
  change (join tab (a :: (s :: l) ++ [z]))
    with (a +:+ String tab (join tab (s :: l ++ [z]))).
  by rewrite Hr, append_cons, append_assoc.
Qed.

(** The text of a gene set of clean fields, and its fields. *)
Lemma GeneSet_str_fields o g :
  clean_field (name g) → clean_field (descr g) →
  (∀ x, x ∈ genes g → clean_field x) →
  split tab (strip (GeneSet_str o g))
  = name g :: descr g :: set_list o (genes g).
Proof.
  intros (Hn & Hsn & Htn & _) (Hd & Hsd & Htd & _) Hgenes.
  unfold GeneSet_str.
  assert (Forall clean_field (set_list o (genes g))) as Hgl.
  { apply Forall_forall. intros x Hx. apply Hgenes.
    by apply (set_list_elem_of o). }
  destruct (set_list o (genes g)) as [|x gl _] using rev_ind.
  - change (join tab []) with "".
    assert (strip (name g +:+ String tab (descr g +:+ String tab ""))
            = name g +:+ String tab (descr g)) as ->.
    { unfold strip. rewrite lstrip_app by (done || by apply strip_fixed).
      replace (name g +:+ String tab (descr g +:+ String tab ""))
        with ((name g +:+ String tab (descr g)) +:+ String tab "")
        by by rewrite !append_assoc, append_cons.
      rewrite rstrip_app_space by done.
      replace (name g +:+ String tab (descr g))
        with ((name g +:+ String tab "") +:+ descr g)
        by by rewrite append_assoc.
      apply rstrip_app; [done|by apply strip_fixed]. }
    by rewrite split_tab_app, Htd.
  - apply Forall_app in Hgl as [Hgl Hx].
    apply Forall_singleton in Hx as (Hx & Hsx & Htx & _).
    assert (name g +:+ String tab (descr g +:+ String tab (join tab (gl ++ [x])))
            = join tab (name g :: (descr g :: gl) ++ [x])) as ->
      by by destruct gl.
    destruct (join_ends (name g) (descr g :: gl) x) as [r Hr].
    assert (strip (join tab (name g :: (descr g :: gl) ++ [x]))
            = join tab (name g :: (descr g :: gl) ++ [x])) as ->.
    { rewrite Hr. by apply strip_between. }
    apply split_tab_join; [done|].
    repeat (constructor; [done|]).
    apply Forall_app. split; [|by repeat constructor].
    eapply Forall_impl; [exact Hgl|]. by intros s (_ & _ & ? & _).
Qed.

(** The text of a gene set of fields without a line break has none. *)
Lemma split_none_app sep s r :
  split sep s = [s] → split sep r = [r] → split sep (s +:+ r) = [s +:+ r].
Proof.
  intros Hs Hr. induction s as [|c s IH]; [done|].
  rewrite append_cons. cbn [split] in *.
  destruct (Ascii.eqb c sep); [done|].
  destruct (split sep s) as [|f fs] eqn:Hf;
    [by destruct (split_not_nil sep s)|].
  injection Hs as -> ->. by rewrite IH.
Qed.

Lemma split_none_join sep l :
  split sep (String tab "") = [String tab ""] →
  Forall (λ s, split sep s = [s]) l →
  split sep (join tab l) = [join tab l].
Proof.
  intros Htab Hl. induction Hl as [|s l Hs Hl IH]; [done|].
  destruct l as [|s' l]; [done|].
  change (join tab (s :: s' :: l))
    with (s +:+ String tab "" +:+ join tab (s' :: l)).
  by repeat apply split_none_app.
Qed.

Lemma GeneSet_str_one_line o g :
  clean_field (name g) → clean_field (descr g) →
  (∀ x, x ∈ genes g → clean_field x) →
  one_line (GeneSet_str o g).
Proof.
  intros (_ & _ & _ & Hn1 & Hn2) (_ & _ & _ & Hd1 & Hd2) Hgenes.
  assert (Forall one_line (set_list o (genes g))) as Hgl.
  { apply Forall_forall. intros x Hx%(set_list_elem_of o).
    by destruct (Hgenes x Hx) as (_ & _ & _ & ?). }
  unfold GeneSet_str.
  change (name g +:+ String tab (descr g +:+ String tab
            (join tab (set_list o (genes g)))))
    with (name g +:+ String tab "" +:+ descr g +:+ String tab ""
            +:+ join tab (set_list o (genes g))).
  split; repeat apply split_none_app; try done;
    apply split_none_join; try done;
    (eapply Forall_impl; [exact Hgl|]); by intros s [].
Qed.

(** X4: the text [str(g)] of a gene set whose name, description and
    genes are clean fields (not empty, without a tab or a line break,
    without white space at the ends) has no line break, so that a file
    that holds it has it as its one line; read by [read_gene_sets], that
    line gives the catalogue with one gene set, stored under the name of
    [g], with the name, the description and the genes of [g]. *)
Theorem read_gene_sets_of_str (o o' : set_order) (g : GeneSet) :
  clean_field (name g) → clean_field (descr g) →
  (∀ x, x ∈ genes g → clean_field x) →
  one_line (GeneSet_str o g) ∧
  read_gene_sets o' [GeneSet_str o g] =
  Returns [] {[ name g :=
    GeneSet_init o' (name g) (descr g) (PySet (genes g)) ]}.
Proof.
  intros Hname Hdescr Hgenes.
  split; [by apply GeneSet_str_one_line|]. unfold read_gene_sets.
  cbn [read_gene_sets_loop].
  rewrite (read_gene_set_line_fields o' ∅ _ _ _ _
             (GeneSet_str_fields o g Hname Hdescr Hgenes)).
  change (Returns [] ?x) with (mret (M:=Py) x). rewrite Py_bind_ret.
  destruct Hname as (_ & -> & _), Hdescr as (_ & -> & _).
  assert (strip <$> set_list o (genes g) = set_list o (genes g)) as ->.
  { rewrite <-(list_fmap_id (set_list o (genes g))) at 2.
    apply list_fmap_ext. intros _ x Hx%list_elem_of_lookup_2.
    apply (set_list_elem_of o) in Hx. by destruct (Hgenes x Hx) as (_ & ? & _). }
  by rewrite list_to_set_set_list.
Qed.

Lemma read_gene_sets_last_wins_witness :
  read_gene_sets elements_order ([line_SET1_old] ++ line_SET1 :: [line_SET2])
    = Returns [] catalogue_read ∧
  split tab (strip line_SET1)
    = "SET1" :: "desc one" :: ["GENE_A"; "GENE_B"; "GENE_A"] ∧
  (∀ l, l ∈ [line_SET2] → line_name l ≠ Some (strip "SET1")) ∧
  catalogue_read !! strip "SET1" =
  Some (GeneSet_init elements_order (strip "SET1") (strip "desc one")
          (PySet (list_to_set (strip <$> ["GENE_A"; "GENE_B"; "GENE_A"])))).
Proof.
  assert (read_gene_sets elements_order
            ([line_SET1_old] ++ line_SET1 :: [line_SET2])
          = Returns [] catalogue_read) as Hret by (vm_compute; reflexivity).
  assert (∀ l, l ∈ [line_SET2] → line_name l ≠ Some (strip "SET1")) as Hafter.
  { intros l ->%list_elem_of_singleton. vm_compute. discriminate. }
  split; [exact Hret|]. split; [reflexivity|]. split; [exact Hafter|].
  exact (read_gene_sets_last_wins elements_order [line_SET1_old] [line_SET2]
           line_SET1 "SET1" "desc one" ["GENE_A"; "GENE_B"; "GENE_A"]
           [] catalogue_read Hret eq_refl Hafter).
Defined.

Lemma read_gene_sets_catalogue_witness :
  read_gene_sets elements_order catalogue_lines = Returns [] catalogue_read ∧
  dom catalogue_read = list_to_set (omap line_name catalogue_lines) ∧
  ∀ k g, catalogue_read !! k = Some g →
    name g = k ∧ NoDup (genes_ordered g) ∧
    ∀ x, x ∈ genes_ordered g ↔ x ∈ genes g.
Proof.
  assert (read_gene_sets elements_order catalogue_lines
          = Returns [] catalogue_read) as Hret by (vm_compute; reflexivity).
  split; [exact Hret|].
  exact (read_gene_sets_catalogue elements_order catalogue_lines []
           catalogue_read Hret).
Defined.

Lemma read_gene_sets_of_str_witness :
  clean_field (name gene_set_1) ∧ clean_field (descr gene_set_1) ∧
  (∀ x, x ∈ genes gene_set_1 → clean_field x) ∧
  one_line (GeneSet_str elements_order gene_set_1) ∧
  read_gene_sets elements_order [GeneSet_str elements_order gene_set_1] =
  Returns [] {[ name gene_set_1 :=
    GeneSet_init elements_order (name gene_set_1) (descr gene_set_1)
      (PySet (genes gene_set_1)) ]}.
Proof.
  assert (clean_field (name gene_set_1)) as Hname by (by repeat split).
  assert (clean_field (descr gene_set_1)) as Hdescr by (by repeat split).
  assert (∀ x, x ∈ genes gene_set_1 → clean_field x) as Hgenes.
  { intros x Hx.
    change (x ∈@{gset string} list_to_set ["GENE_A"; "GENE_B"]) in Hx.
    rewrite elem_of_list_to_set in Hx.
    apply elem_of_cons in Hx as [->|Hx]; [by repeat split|].
    apply list_elem_of_singleton in Hx as ->. by repeat split. }
  split; [exact Hname|]. split; [exact Hdescr|]. split; [exact Hgenes|].
  exact (read_gene_sets_of_str elements_order elements_order gene_set_1
           Hname Hdescr Hgenes).
Defined.

(** ** Common samples: errors, warnings and alignment *)

Section alignment_more.
Context `{Countable K} {V : Type}.
Implicit Types (df : Series K V) (df_list : list (Series K V)).


(** X6: when [to_common_samples] returns, it has warned exactly
    when no label is common to all the sequences of the list, and the
    warning is the one message [No common samples!], once. *)
Theorem to_common_samples_warns o df_list w out :
  to_common_samples o df_list = Returns w out →
  (w = [] ↔ ∃ k, ∀ d, d ∈ df_list → k ∈ index d) ∧
  (w ≠ [] → w = ["No common samples!"]).
Proof.
  destruct df_list as [|df0 rest]; [done|].
  rewrite to_common_samples_returns by done.
  set (df_list := df0 :: rest). intros [= <- _].
  case_bool_decide as Hsize; split; try done.
  - split; [done|]. intros [k Hk].
    apply (elem_of_common_keys df_list k) in Hk; [|done].
    exfalso. change (size (common_keys df_list) < 1) in Hsize.
    assert (size (common_keys df_list) ≠ 0); [|lia].
    intros Hz%size_empty_inv. by apply Hz in Hk.
  - split; [|done]. intros _.
    destruct (set_choose_L (common_keys df_list)) as [k Hk].
    { intros Hempty. change (¬ size (common_keys df_list) < 1) in Hsize.
      rewrite Hempty, size_empty in Hsize. lia. }
    exists k. by apply (elem_of_common_keys df_list k).
Qed.

(** The rows that a restriction keeps: those of the labels kept. *)
Lemma rows_restrict o (cs : gset K) df :
  rows (restrict o cs df) ≡ₚ filter (λ r, r.1 ∈ cs) (rows df).
Proof.
  cbn [restrict rows].
  assert (∀ labels : list K, NoDup labels →
    concat (rows_at df <$> labels) ≡ₚ filter (λ r, r.1 ∈ labels) (rows df))
    as Hlabels.
  { induction 1 as [|k labels Hk _ IH]; cbn [fmap list_fmap concat].
    - symmetry. apply Permutation_nil_r, elem_of_nil_inv.
      intros r [Hr _]%list_elem_of_filter. by apply elem_of_nil in Hr.
    - rewrite IH. unfold rows_at. apply filter_split. intros r _.
      rewrite elem_of_cons. split; [tauto|]. intros [-> ?]. done. }
  rewrite Hlabels by apply set_list_NoDup.
  erewrite list_filter_iff; [done|]. intros r. cbn. apply set_list_elem_of.
Qed.

(** X7: each sequence that [to_common_samples] returns keeps the
    name of the input at its position and holds, in some order, exactly
    the rows of that input whose label is in every sequence of the
    list: no row is added, changed or dropped among them. *)
Theorem to_common_samples_rows o df_list w out i df df' :
  to_common_samples o df_list = Returns w out →
  df_list !! i = Some df → out !! i = Some df' →
  sname df' = sname df ∧
  rows df' ≡ₚ
  filter (λ r, Forall (λ d, r.1 ∈ index d) df_list) (rows df).
Proof.
  destruct df_list as [|df0 rest] eqn:Hl; [done|]. rewrite <-Hl.
  assert (df_list ≠ []) as Hne by by rewrite Hl.
  clear Hl. rewrite to_common_samples_returns by done.
  intros [= <- <-] Hi. rewrite list_lookup_fmap, Hi. intros [= <-].
  split; [done|]. rewrite rows_restrict.
  erewrite list_filter_iff; [done|]. intros r. cbn.
  by rewrite elem_of_common_keys, Forall_forall.
Qed.

(** Of a sequence whose labels do not repeat, the labels picked are the
    labels asked for, in their order. *)
Lemma index_concat_rows_at df (labels : list K) :
  NoDup (index df) → (∀ k, k ∈ labels → k ∈ index df) →
  (concat (rows_at df <$> labels)).*1 = labels.
Proof.
  intros Hnodup Hin. induction labels as [|k labels IH]; [done|].
  cbn [fmap list_fmap concat]. rewrite fmap_app, IH.
  2:{ intros k' Hk'. apply Hin. by right. }
  assert (k ∈ index df) as Hk by (apply Hin; left).
  assert ((rows_at df k).*1 = [k]) as ->; [|done].
  clear -Hk Hnodup. unfold index, rows_at in *.
  induction (rows df) as [|[k' v] l IH]; [by apply elem_of_nil in Hk|].
  cbn [fmap list_fmap fst] in *. apply NoDup_cons in Hnodup as [Hnot Hnodup].
  rewrite filter_cons. cbn [fst]. case_decide as Hkk.
  - subst k'. cbn [fmap list_fmap fst]. f_equal.
    replace (filter _ l) with (@nil (K * V)); [done|].
    symmetry. apply elem_of_nil_inv.
    intros [k1 v1] [Hk1 Hin]%list_elem_of_filter.
    cbn in Hk1. subst k1. apply Hnot. apply list_elem_of_fmap.
    exists (k, v1). by split.
  - apply IH; [done|]. apply elem_of_cons in Hk as [|]; [congruence|done].
Qed.

(** X8: when no input repeats a label, the sequences that
    [to_common_samples] returns all have the same index, label for label
    in the same order: the common labels, each once. *)
Theorem to_common_samples_aligned o df_list w out :
  to_common_samples o df_list = Returns w out →
  Forall (λ d, NoDup (index d)) df_list →
  ∃ idx, NoDup idx ∧
    (∀ k, k ∈ idx ↔ ∀ d, d ∈ df_list → k ∈ index d) ∧
    Forall (λ df', index df' = idx) out.
Proof.
  destruct df_list as [|df0 rest] eqn:Hl; [done|]. rewrite <-Hl.
  assert (df_list ≠ []) as Hne by by rewrite Hl.
  clear Hl. rewrite to_common_samples_returns by done.
  intros [= <- <-] Hnodup.
  exists (set_list o (common_keys df_list)).
  split; [apply set_list_NoDup|]. split.
  - intros k. by rewrite set_list_elem_of, elem_of_common_keys.
  - apply Forall_fmap, Forall_forall. intros df Hdf.
    rewrite Forall_forall in Hnodup.
    apply (index_concat_rows_at df); [by apply Hnodup|].
    intros k Hk%set_list_elem_of. by apply (elem_of_common_keys df_list k).
Qed.

(** X9: [to_common_samples] applied to its own result gives the same
    warnings again and, for each sequence, the same name and the same
    rows up to their order, whatever the orders in which the two calls
    iterate their sets. *)
Theorem to_common_samples_twice o1 o2 df_list w out :
  to_common_samples o1 df_list = Returns w out →
  ∃ out', to_common_samples o2 out = Returns w out' ∧
    Forall2 (λ df df', sname df' = sname df ∧ rows df' ≡ₚ rows df) out out'.
Proof.
  destruct df_list as [|df0 rest] eqn:Hl; [done|]. rewrite <-Hl.
  assert (df_list ≠ []) as Hne by by rewrite Hl.
  clear Hl. rewrite to_common_samples_returns by done.
  intros [= <- <-]. set (cs := common_keys df_list).
  set (out := restrict o1 cs <$> df_list).
  assert (out ≠ []) as Hne' by by destruct df_list.
  assert (common_keys out = cs) as Hcs.
  { apply set_eq. intros k. rewrite elem_of_common_keys by done. split.
    - intros Hk. destruct df_list as [|d ds]; [done|].
      specialize (Hk (restrict o1 cs d)).
      apply elem_of_index_restrict in Hk as [? _]; [done|]. left.
    - intros Hk d (d0 & -> & Hd0)%list_elem_of_fmap.
      apply elem_of_index_restrict. split; [done|].
      by apply (elem_of_common_keys df_list k). }
  eexists. split.
  - rewrite to_common_samples_returns by done. by rewrite Hcs.
  - apply Forall2_fmap_r, Forall_Forall2_diag, Forall_forall.
    intros df' (d & -> & Hd)%list_elem_of_fmap.
    split; [done|]. rewrite !rows_restrict, list_filter_filter.
    erewrite list_filter_iff; [done|]. tauto.
Qed.
End alignment_more.

Lemma to_common_samples_warns_witness :
  to_common_samples elements_order [samples_x; samples_z]
    = Returns ["No common samples!"] samples_xz_common ∧
  (["No common samples!"] = [] ↔
   ∃ k, ∀ d, d ∈ [samples_x; samples_z] → k ∈ index d) ∧
  (["No common samples!"] ≠ [] →
   ["No common samples!"] = ["No common samples!"]).
Proof.
  assert (to_common_samples elements_order [samples_x; samples_z]
          = Returns ["No common samples!"] samples_xz_common) as Hret
    by (vm_compute; reflexivity).
  split; [exact Hret|].
  exact (to_common_samples_warns elements_order [samples_x; samples_z]
           ["No common samples!"] samples_xz_common Hret).
Defined.

Lemma to_common_samples_rows_witness :
  to_common_samples elements_order [samples_x; samples_y]
    = Returns [] samples_xy_common ∧
  [samples_x; samples_y] !! 0%nat = Some samples_x ∧
  samples_xy_common !! 0%nat
    = Some (mkSeries (Some "x") [("s3", 3); ("s1", 1)]%Z) ∧
  sname (mkSeries (Some "x") [("s3", 3); ("s1", 1)]%Z) = sname samples_x ∧
  rows (mkSeries (Some "x") [("s3", 3); ("s1", 1)]%Z) ≡ₚ
  filter (λ r, Forall (λ d, r.1 ∈ index d) [samples_x; samples_y])
    (rows samples_x).
Proof.
  assert (to_common_samples elements_order [samples_x; samples_y]
          = Returns [] samples_xy_common) as Hret
    by (vm_compute; reflexivity).
  split; [exact Hret|]. split; [reflexivity|]. split; [reflexivity|].
  exact (to_common_samples_rows elements_order [samples_x; samples_y] []
           samples_xy_common 0 samples_x _ Hret eq_refl eq_refl).
Defined.

Lemma to_common_samples_aligned_witness :
  to_common_samples elements_order [samples_x; samples_y]
    = Returns [] samples_xy_common ∧
  Forall (λ d, NoDup (index d)) [samples_x; samples_y] ∧
  ∃ idx, NoDup idx ∧
    (∀ k, k ∈ idx ↔ ∀ d, d ∈ [samples_x; samples_y] → k ∈ index d) ∧
    Forall (λ df', index df' = idx) samples_xy_common.
Proof.
  assert (to_common_samples elements_order [samples_x; samples_y]
          = Returns [] samples_xy_common) as Hret
    by (vm_compute; reflexivity).
  assert (Forall (λ d, NoDup (index d)) [samples_x; samples_y]) as Hnodup.
  { repeat constructor; by apply (bool_decide_unpack _). }
  split; [exact Hret|]. split; [exact Hnodup|].
  exact (to_common_samples_aligned elements_order [samples_x; samples_y] []
           samples_xy_common Hret Hnodup).
Defined.

Lemma to_common_samples_twice_witness :
  to_common_samples elements_order [samples_x; samples_y]
    = Returns [] samples_xy_common ∧
  ∃ out', to_common_samples elements_order samples_xy_common
          = Returns [] out' ∧
    Forall2 (λ df df', sname df' = sname df ∧ rows df' ≡ₚ rows df)
      samples_xy_common out'.
Proof.
  assert (to_common_samples elements_order [samples_x; samples_y]
          = Returns [] samples_xy_common) as Hret
    by (vm_compute; reflexivity).
  split; [exact Hret|].
  exact (to_common_samples_twice elements_order elements_order
           [samples_x; samples_y] [] samples_xy_common Hret).
Defined.

(** ** Counting pairs: the shape of the table and its margins *)

Section pivot_more.
Context `{Countable K} `{EqDecision V}.
Context (Vle : relation V) `{!RelDecision Vle}.
Implicit Types (vec : Series K (option V)).

Lemma present_pairs_swap vec1 vec2 :
  present_pairs vec2 vec1 = (λ p, (p.2, p.1)) <$> present_pairs vec1 vec2.
Proof.
  unfold present_pairs.
  generalize (rows vec1).*2 (rows vec2).*2. intros v1.
  induction v1 as [|a v1 IH]; intros [|b v2]; try done.
  cbn [zip zip_with omap list_omap]. rewrite IH.
  by destruct a, b.
Qed.

Lemma pair_count_swap vec1 vec2 c r :
  pair_count vec2 vec1 r c = pair_count vec1 vec2 c r.
Proof.
  unfold pair_count. rewrite present_pairs_swap.
  induction (present_pairs vec1 vec2) as [|[c' r'] ps IH]; [done|].
  cbn [fmap list_fmap]. rewrite !filter_cons. cbn [fst snd].
  destruct (decide ((c', r') = (c, r))) as [[= -> ->]|Hne].
  - rewrite decide_True by done. cbn. by rewrite IH.
  - rewrite decide_False by (intros [= -> ->]; done). done.
Qed.

(** X10: for two sequences over one index, under labels that differ
    from each other and from [N], the table of [pivot_vectors] has one
    row of cells for each row label and in each row one cell for each
    column label; the row labels are the values of [vec2] and the column
    labels the values of [vec1] at the samples where neither value is
    missing, each once, and in ascending order when the order of the
    values is total. *)
Theorem pivot_vectors_shape o vec1 vec2 :
  index vec1 = index vec2 → pivot_labels_ok vec1 vec2 →
  ∃ t rs cs, pivot_vectors Vle o vec1 vec2 = Returns [] t ∧
    pt_index t = Value <$> rs ∧ pt_columns t = Value <$> cs ∧
    length (pt_values t) = length (pt_index t) ∧
    Forall (λ row, length row = length (pt_columns t)) (pt_values t) ∧
    NoDup (pt_index t) ∧ NoDup (pt_columns t) ∧
    (∀ r, r ∈ rs ↔ ∃ c, (c, r) ∈ present_pairs vec1 vec2) ∧
    (∀ c, c ∈ cs ↔ ∃ r, (c, r) ∈ present_pairs vec1 vec2) ∧
    (Total Vle → Sorted Vle rs ∧ Sorted Vle cs).
Proof.
  intros Hidx (Hne & H1 & H2). eexists _, _, _.
  split; [by apply pivot_vectors_returns|]. cbn [pt_values pt_index pt_columns].
  split; [done|]. split; [done|].
  split; [by rewrite !length_fmap|]. split.
  { apply Forall_fmap, Forall_forall. intros r _. cbn. by rewrite !length_fmap. }
  assert (Inj (=) (=) (Value (V:=V))) as Hinj by (by intros ?? [=]).
  split.
  { apply (NoDup_fmap_2 _). rewrite merge_sort_Permutation.
    apply NoDup_remove_dups. }
  split.
  { apply (NoDup_fmap_2 _). rewrite merge_sort_Permutation.
    apply NoDup_remove_dups. }
  split; [|split].
  - intros r. rewrite merge_sort_Permutation, elem_of_remove_dups.
    rewrite list_elem_of_fmap. split.
    + intros ([c r'] & -> & Hin). by exists c.
    + intros [c Hin]. by exists (c, r).
  - intros c. rewrite merge_sort_Permutation, elem_of_remove_dups.
    rewrite list_elem_of_fmap. split.
    + intros ([c' r] & -> & Hin). by exists r.
    + intros [r Hin]. by exists (c, r).
  - intros Htotal. split; by apply Sorted_merge_sort.
Qed.

(** X11: for two sequences over one index, under axis labels that
    differ from each other and from [N] in either order of the two
    sequences, swapping the two sequences transposes the table of
    [pivot_vectors]: the row labels and the column labels change places,
    and so do the two positions of each cell. *)
Theorem pivot_vectors_transpose o o' vec1 vec2 :
  index vec1 = index vec2 →
  pivot_labels_ok vec1 vec2 → pivot_labels_ok vec2 vec1 →
  ∃ t t', pivot_vectors Vle o vec1 vec2 = Returns [] t ∧
    pivot_vectors Vle o' vec2 vec1 = Returns [] t' ∧
    pt_index t' = pt_columns t ∧ pt_columns t' = pt_index t ∧
    ∀ i j, table_cell t' j i = table_cell t i j.
Proof.
  intros Hidx (Hne & H1 & H2) (Hne' & H1' & H2'). eexists _, _.
  split; [by apply pivot_vectors_returns|].
  split; [by apply pivot_vectors_returns|].
  cbn [pt_index pt_columns]. rewrite present_pairs_swap.
  rewrite <-!list_fmap_compose.
  assert (∀ ps : list (V * V), (snd ∘ (λ p : V * V, (p.2, p.1))) <$> ps = ps.*1)
    as -> by (intros ps; by apply list_fmap_ext).
  assert (∀ ps : list (V * V), (fst ∘ (λ p : V * V, (p.2, p.1))) <$> ps = ps.*2)
    as -> by (intros ps; by apply list_fmap_ext).
  split; [done|]. split; [done|]. intros i j. unfold table_cell.
  cbn [pt_values]. rewrite !list_lookup_fmap.
  destruct (merge_sort Vle (remove_dups (present_pairs vec1 vec2).*2) !! i)
    as [r|] eqn:Hr;
    destruct (merge_sort Vle (remove_dups (present_pairs vec1 vec2).*1) !! j)
    as [c|] eqn:Hc; cbn; rewrite ?list_lookup_fmap, ?Hc, ?Hr; cbn; try done.
  by rewrite pair_count_swap.
Qed.

Lemma foldr_add_counts {A} (f : A → nat) (l : list A) :
  foldr Z.add 0%Z ((λ x, Z.of_nat (f x)) <$> l) = Z.of_nat (sum_list_with f l).
Proof. induction l as [|x l IH]; [done|]. cbn. rewrite IH. lia. Qed.

Lemma list_filter_iff_in {A} (P Q : A → Prop)
    `{!∀ x, Decision (P x), !∀ x, Decision (Q x)} (l : list A) :
  (∀ x, x ∈ l → P x ↔ Q x) → filter P l = filter Q l.
Proof.
  induction l as [|x l IH]; intros HPQ; [done|]. rewrite !filter_cons.
  rewrite IH by (intros y Hy; apply HPQ; by right).
  destruct (decide (P x)) as [HP|HP].
  - rewrite decide_True; [done|]. by apply (HPQ x); [left|].
  - rewrite decide_False; [done|]. intros HQ. apply HP. by apply (HPQ x); [left|].
Qed.

Lemma pair_count_by_row (ps : list (V * V)) (r : V) (cs : list V) :
  NoDup cs → (∀ p, p ∈ ps → p.1 ∈ cs) →
  sum_list_with (λ c, length (filter (λ p, p = (c, r)) ps)) cs =
  length (filter (λ p, p.2 = r) ps).
Proof.
  intros Hnd Hin.
  rewrite (list_filter_iff_in (λ p, p.2 = r) (λ p, p.1 ∈ cs ∧ p.2 = r))
    by (intros p Hp; specialize (Hin p Hp); tauto).
  rewrite <-(sum_counts_by_key fst (λ p, p.2 = r)) by done.
  apply sum_list_with_eq. intros c _. f_equal. apply list_filter_iff.
  intros [c' r']. cbn. split; [by intros [= -> ->]|by intros [-> ->]].
Qed.

Lemma pair_count_by_column (ps : list (V * V)) (c : V) (rs : list V) :
  NoDup rs → (∀ p, p ∈ ps → p.2 ∈ rs) →
  sum_list_with (λ r, length (filter (λ p, p = (c, r)) ps)) rs =
  length (filter (λ p, p.1 = c) ps).
Proof.
  intros Hnd Hin.
  rewrite (list_filter_iff_in (λ p, p.1 = c) (λ p, p.2 ∈ rs ∧ p.1 = c))
    by (intros p Hp; specialize (Hin p Hp); tauto).
  rewrite <-(sum_counts_by_key snd (λ p, p.1 = c)) by done.
  apply sum_list_with_eq. intros r _. f_equal. apply list_filter_iff.
  intros [c' r']. cbn. split; [by intros [= -> ->]|by intros [-> ->]].
Qed.

(** X12: for two sequences over one index, under axis labels that
    differ from each other and from [N], in the table of
    [pivot_vectors] the cells of the row of a value of [vec2] sum to the
    number of samples with that value in [vec2], and the cells of the
    column of a value of [vec1] to the number of samples with that value
    in [vec1], counting the samples where neither value is missing. *)
Theorem pivot_vectors_marginals o vec1 vec2 :
  index vec1 = index vec2 → pivot_labels_ok vec1 vec2 →
  ∃ t, pivot_vectors Vle o vec1 vec2 = Returns [] t ∧
    (∀ i r, pt_index t !! i = Some (Value r) →
      ∃ row, pt_values t !! i = Some row ∧
        foldr Z.add 0%Z row =
        Z.of_nat (length (filter (λ p, p.2 = r) (present_pairs vec1 vec2)))) ∧
    (∀ j c, pt_columns t !! j = Some (Value c) →
      foldr Z.add 0%Z (omap (.!! j) (pt_values t)) =
      Z.of_nat (length (filter (λ p, p.1 = c) (present_pairs vec1 vec2)))).
Proof.
  intros Hidx (Hne & H1 & H2). eexists.
  split; [by apply pivot_vectors_returns|]. cbn [pt_values pt_index pt_columns].
  set (ps := present_pairs vec1 vec2).
  assert (Hrs : ∀ p, p ∈ ps → p.2 ∈ merge_sort Vle (remove_dups ps.*2)).
  { intros p Hp. rewrite merge_sort_Permutation, elem_of_remove_dups.
    apply list_elem_of_fmap. by exists p. }
  assert (Hcs : ∀ p, p ∈ ps → p.1 ∈ merge_sort Vle (remove_dups ps.*1)).
  { intros p Hp. rewrite merge_sort_Permutation, elem_of_remove_dups.
    apply list_elem_of_fmap. by exists p. }
  assert (Hndr : NoDup (merge_sort Vle (remove_dups ps.*2)))
    by (rewrite merge_sort_Permutation; apply NoDup_remove_dups).
  assert (Hndc : NoDup (merge_sort Vle (remove_dups ps.*1)))
    by (rewrite merge_sort_Permutation; apply NoDup_remove_dups).
  split.
  - intros i r Hr. rewrite list_lookup_fmap in Hr.
    destruct (merge_sort Vle (remove_dups ps.*2) !! i) as [r'|] eqn:Hi;
      [|done].
    cbn in Hr. injection Hr as ->.
    eexists. rewrite list_lookup_fmap, Hi. split; [done|].
    rewrite foldr_add_counts. f_equal. by apply pair_count_by_row.
  - intros j c Hc. rewrite list_lookup_fmap in Hc.
    destruct (merge_sort Vle (remove_dups ps.*1) !! j) as [c'|] eqn:Hj;
      [|done].
    cbn in Hc. injection Hc as ->.
    rewrite <-(pair_count_by_column ps c _ Hndr Hrs), <-foldr_add_counts.
    f_equal. generalize (merge_sort Vle (remove_dups ps.*2)). intros rs.
    induction rs as [|r rs IH]; [done|]. cbn [fmap list_fmap omap list_omap].
    rewrite list_lookup_fmap, Hj. cbn. by rewrite <-IH.
Qed.
End pivot_more.

Lemma pivot_vectors_shape_witness :
  index vec_filled = index vec_other ∧ pivot_labels_ok vec_filled vec_other ∧
  ∃ t rs cs, pivot_vectors Z.le elements_order vec_filled vec_other
       = Returns [] t ∧
    pt_index t = Value <$> rs ∧ pt_columns t = Value <$> cs ∧
    length (pt_values t) = length (pt_index t) ∧
    Forall (λ row, length row = length (pt_columns t)) (pt_values t) ∧
    NoDup (pt_index t) ∧ NoDup (pt_columns t) ∧
    (∀ r, r ∈ rs ↔ ∃ c, (c, r) ∈ present_pairs vec_filled vec_other) ∧
    (∀ c, c ∈ cs ↔ ∃ r, (c, r) ∈ present_pairs vec_filled vec_other) ∧
    (Total Z.le → Sorted Z.le rs ∧ Sorted Z.le cs).
Proof.
  assert (pivot_labels_ok vec_filled vec_other) as Hok by (by repeat split).
  split; [reflexivity|]. split; [exact Hok|].
  exact (pivot_vectors_shape Z.le elements_order vec_filled vec_other
           eq_refl Hok).
Defined.

Lemma pivot_vectors_transpose_witness :
  index vec_filled = index vec_other ∧
  pivot_labels_ok vec_filled vec_other ∧
  pivot_labels_ok vec_other vec_filled ∧
  ∃ t t', pivot_vectors Z.le elements_order vec_filled vec_other
          = Returns [] t ∧
    pivot_vectors Z.le elements_order vec_other vec_filled = Returns [] t' ∧
    pt_index t' = pt_columns t ∧ pt_columns t' = pt_index t ∧
    ∀ i j, table_cell t' j i = table_cell t i j.
Proof.
  assert (pivot_labels_ok vec_filled vec_other) as Hok by (by repeat split).
  assert (pivot_labels_ok vec_other vec_filled) as Hok' by (by repeat split).
  split; [reflexivity|]. split; [exact Hok|]. split; [exact Hok'|].
  exact (pivot_vectors_transpose Z.le elements_order elements_order
           vec_filled vec_other eq_refl Hok Hok').
Defined.

Lemma pivot_vectors_marginals_witness :
  index vec_filled = index vec_other ∧ pivot_labels_ok vec_filled vec_other ∧
  ∃ t, pivot_vectors Z.le elements_order vec_filled vec_other
       = Returns [] t ∧
    (∀ i r, pt_index t !! i = Some (Value r) →
      ∃ row, pt_values t !! i = Some row ∧
        foldr Z.add 0%Z row =
        Z.of_nat (length (filter (λ p, p.2 = r)
                            (present_pairs vec_filled vec_other)))) ∧
    (∀ j c, pt_columns t !! j = Some (Value c) →
      foldr Z.add 0%Z (omap (.!! j) (pt_values t)) =
      Z.of_nat (length (filter (λ p, p.1 = c)
                          (present_pairs vec_filled vec_other)))).
Proof.
  assert (pivot_labels_ok vec_filled vec_other) as Hok by (by repeat split).
  split; [reflexivity|]. split; [exact Hok|].
  exact (pivot_vectors_marginals Z.le elements_order vec_filled vec_other
           eq_refl Hok).
Defined.

(** ** Linear ranges: missing values, the labelled samples, the order of
    the cut points *)

(** A value that a comparison accepts is not NaN. *)
Lemma SFcompare_nan_l y : SFcompare S754_nan y = None.
Proof. done. Qed.

Lemma leb_notna_l v t : (v <=? t)%float = true → notna v = true.
Proof.
  unfold notna. rewrite FloatAxioms.leb_spec, FloatAxioms.eqb_spec.
  unfold SFleb, SFeqb.
  destruct (Prim2SF v) as [[]|[]| |[] m e]; try done;
    intros _; cbn; by rewrite ?Z.compare_refl, ?Pos.compare_cont_refl.
Qed.

Lemma in_range_notna mn rg tr tr2 v :
  in_range mn rg tr tr2 v = true → notna v = true.
Proof.
  unfold in_range. destruct (cut_val tr =? 0)%float;
    intros [_ Hle]%andb_true_iff; by apply leb_notna_l in Hle.
Qed.

Lemma filter_notna_idemp (vals : list float) :
  filter (λ v, notna v = true) (filter (λ v, notna v = true) vals)
  = filter (λ v, notna v = true) vals.
Proof. rewrite list_filter_filter. apply list_filter_iff. tauto. Qed.

Lemma filter_notna_values {K} (data : list (K * float)) :
  (filter (λ r, notna r.2 = true) data).*2
  = filter (λ v, notna v = true) data.*2.
Proof.
  induction data as [|[k v] data IH]; [done|]. cbn [fmap list_fmap snd].
  destruct (decide (notna v = true)) as [Hv|Hv].
  - rewrite !filter_cons_True by done. cbn [fmap list_fmap snd]. by rewrite IH.
  - by rewrite !filter_cons_False by done.
Qed.

Lemma series_max_present {K} (data : list (K * float)) :
  series_max (filter (λ r, notna r.2 = true) data).*2 = series_max data.*2.
Proof.
  unfold series_max. by rewrite filter_notna_values, filter_notna_idemp.
Qed.

Lemma series_min_present {K} (data : list (K * float)) :
  series_min (filter (λ r, notna r.2 = true) data).*2 = series_min data.*2.
Proof.
  unfold series_min. by rewrite filter_notna_values, filter_notna_idemp.
Qed.

Lemma linear_ranges_loop_present {K} float_str (data : list (K * float))
    mn rg tr cuts :
  linear_ranges_loop float_str (filter (λ r, notna r.2 = true) data)
    mn rg tr cuts
  = linear_ranges_loop float_str data mn rg tr cuts.
Proof.
  revert tr. induction cuts as [|tr2 cuts IH]; intros tr; [done|].
  cbn [linear_ranges_loop]. rewrite IH. f_equal. f_equal. f_equal.
  rewrite list_filter_filter. apply list_filter_iff. intros r.
  split; [tauto|]. intros Hr. split; [done|]. by apply in_range_notna in Hr.
Qed.

Lemma linear_ranges_loop_nil {K} float_str mn rg tr cuts :
  concat (linear_ranges_loop (K:=K) float_str [] mn rg tr cuts) = [].
Proof.
  revert tr. induction cuts as [|tr2 cuts IH]; intros tr; [done|].
  cbn [linear_ranges_loop concat]. by rewrite IH.
Qed.

(** X13: the samples whose value is missing (NaN) have no part in
    [to_linear_ranges]: the result is the result for the data without
    them. *)
Theorem to_linear_ranges_skips_missing {K} float_str
    (data : list (K * float)) (ps : list float) :
  to_linear_ranges float_str data ps
  = to_linear_ranges float_str (filter (λ r, notna r.2 = true) data) ps.
Proof.
  unfold to_linear_ranges, linear_ranges_ann.
  by rewrite series_max_present, series_min_present,
    linear_ranges_loop_present.
Qed.

(** X14: when every value is missing, and so when the data are
    empty, [to_linear_ranges] returns the empty sequence, whatever the
    cut points. *)
Theorem to_linear_ranges_all_missing {K} float_str
    (data : list (K * float)) (ps : list float) :
  Forall (λ r, notna r.2 = false) data →
  to_linear_ranges float_str data ps = [].
Proof.
  intros Hall. unfold to_linear_ranges, linear_ranges_ann.
  rewrite <-linear_ranges_loop_present.
  replace (filter (λ r, notna r.2 = true) data) with (@nil (K * float)).
  { apply linear_ranges_loop_nil. }
  symmetry. apply elem_of_nil_inv. intros r [Hr Hin]%list_elem_of_filter.
  apply (proj1 (Forall_forall _ _) Hall) in Hin. congruence.
Qed.


Section labelled.
Context {K : Type} (float_str : float → string).
Context (data : list (K * float)).
Hypothesis data_finite : Forall (λ r, is_finite r.2 = true) data.

(** From the cut 0 on, the loop labels, each once, the samples from the
    first threshold up to the last, when no sample is below the first. *)
Lemma linear_ranges_loop_up_to mn rg tr2 cuts :
  Forall later_cut (tr2 :: cuts) →
  thresholds_ordered mn rg (IntCut 0) (tr2 :: cuts) →
  (∀ r, r ∈ data → (threshold mn rg (IntCut 0) <=? r.2)%float = true) →
  (concat (linear_ranges_loop float_str data mn rg (IntCut 0)
             (tr2 :: cuts))).*1
  ≡ₚ (filter (λ r, (r.2 <=? threshold mn rg (last_cut tr2 cuts))%float = true)
        data).*1.
Proof.
  intros Hlater (Hfin & Hle & Hord) Hall.
  cbn [linear_ranges_loop concat]. rewrite fmap_app, constant_series_index.
  pose proof (proj1 (Forall_cons _ _ _) Hlater) as [[_ Htr2] Hlater'].
  assert (∀ r, r ∈ data → is_finite r.2 = true) as Hdata
    by by apply Forall_forall.
  destruct (ordered_cuts_last mn rg tr2 cuts Hord) as [Hlast Hle'].
  pose proof (ordered_cuts_finite mn rg _ _ Hord) as Hfin2.
  destruct cuts as [|tr3 cuts].
  - cbn [linear_ranges_loop concat fmap list_fmap last_cut]. rewrite app_nil_r.
    f_equiv. erewrite list_filter_iff_in; [done|]. intros r Hr. unfold in_range.
    change (cut_val (IntCut 0) =? 0)%float with true. cbv iota.
    rewrite andb_true_iff. specialize (Hall r Hr). tauto.
  - rewrite (linear_ranges_loop_between float_str data mn rg data_finite) by done.
    rewrite <-fmap_app. f_equiv. unfold rows_between.
    apply filter_split. intros r Hr.
    specialize (Hall r Hr). specialize (Hdata r Hr).
    unfold in_range. change (cut_val (IntCut 0) =? 0)%float with true.
    cbv iota. rewrite !andb_true_iff.
    cbn [last_cut] in *.
    set (v := r.2) in *. set (t1 := threshold mn rg (IntCut 0)) in *.
    set (t2 := threshold mn rg tr2) in *.
    set (t3 := threshold mn rg (last_cut tr3 cuts)) in *.
    clearbody v t1 t2 t3. clear -Hdata Hlast Hfin2 Hfin Hle Hle' Hall.
    float_keys. lia.
Qed.

(** X15: for finite data and cut points strictly between 0 and 1
    whose thresholds are finite and do not decrease, the samples that
    [to_linear_ranges] labels are, each once, exactly the samples whose
    value is at most the last threshold, [data.min() + data_range * 1]. *)
Theorem to_linear_ranges_labelled (ps : list float) :
  Forall (λ p, (0 <? p)%float = true ∧ (p <? 1)%float = true) ps →
  thresholds_ordered (series_min data.*2)
    (series_max data.*2 - series_min data.*2) (IntCut 0)
    ((FloatCut <$> np_sort ps) ++ [IntCut 1])%list →
  (to_linear_ranges float_str data ps).*1
  ≡ₚ (filter (λ r, (r.2 <=? threshold (series_min data.*2)
                      (series_max data.*2 - series_min data.*2)
                      (IntCut 1))%float = true) data).*1.
Proof.
  intros Hps Hord.
  assert (Forall later_cut ((FloatCut <$> np_sort ps) ++ [IntCut 1])%list)
    as Hcuts.
  { apply Forall_app. split.
    - apply Forall_fmap, np_sort_Forall.
      eapply Forall_impl; [exact Hps|]. intros p [H0 H1].
      by apply fraction_later_cut.
    - apply Forall_singleton, one_later_cut. }
  unfold to_linear_ranges, linear_ranges_ann.
  pose proof (last_cut_app (IntCut 0) (FloatCut <$> np_sort ps) (IntCut 1))
    as Hlast.
  destruct ((FloatCut <$> np_sort ps) ++ [IntCut 1])%list
    as [|tr2 cuts] eqn:Hc.
  { by apply app_nil in Hc as [_ ?]. }
  cbn [last_cut] in Hlast. rewrite <-Hlast.
  apply linear_ranges_loop_up_to; [done..|].
  intros r Hr.
  pose proof (ordered_cuts_finite _ _ _ _ Hord) as Hfin0.
  pose proof (values_finite data data_finite) as Hvals.
  assert (r.2 ∈ data.*2) as Hv by by apply list_elem_of_fmap_2.
  unfold series_max, series_min in *.
  rewrite filter_notna_finite in * by done.
  destruct (data.*2) as [|v vs]; [by apply elem_of_nil in Hv|].
  apply Forall_cons in Hvals as [Hv0 Hvs].
  destruct (foldl_fmin_spec vs v Hv0 Hvs) as [Hmn Hle].
  pose proof (threshold_zero_cut _ _ Hmn Hfin0) as Hkey.
  specialize (Hle _ Hv).
  assert (is_finite r.2 = true) as Hfin
    by by apply (proj1 (Forall_forall _ _) data_finite).
  pose proof (fkey_finite _ Hmn) as [a Ha]. rewrite Ha in Hkey.
  pose proof (fkey_finite _ Hfin) as [b Hb].
  rewrite (leb_key _ _ a b Hkey Hb).
  by rewrite (leb_key _ _ a b Ha Hb) in Hle.
Qed.
End labelled.

(** The place of a positive number, and the number from its place. *)
Lemma positive_key x :
  (0 <? x)%float = true → ∃ a, fkey x = Some a.
Proof.
  rewrite FloatAxioms.ltb_spec. unfold fkey.
  change (Prim2SF 0) with (S754_zero false).
  destruct (Prim2SF x) as [[]|[]| |[] m e]; try done; by eexists.
Qed.

Lemma positive_key_inj x y :
  (0 <? x)%float = true → (0 <? y)%float = true → fkey x = fkey y → x = y.
Proof.
  rewrite !FloatAxioms.ltb_spec. unfold fkey.
  change (Prim2SF 0) with (S754_zero false).
  intros Hx Hy Hkey. apply Prim2SF_inj.
  destruct (Prim2SF x) as [[]|[]| |[] m e],
           (Prim2SF y) as [[]|[]| |[] m' e']; try done.
  by simplify_eq/=.
Qed.

Lemma sorts_before_key x z a :
  fkey x = Some a →
  sorts_before x z = true ↔
  match fkey z with Some c => ¬ lexlt c a | None => True end.
Proof.
  intros Ha. unfold sorts_before. destruct (fkey z) as [c|] eqn:Hc.
  - assert (notna z = true) as -> by by apply (eqb_key z z c c).
    cbn. rewrite orb_false_r. by apply leb_key.
  - assert (notna z = false) as ->.
    { unfold notna. apply not_true_iff_false.
      rewrite FloatAxioms.eqb_spec. unfold fkey in Hc.
      by destruct (Prim2SF z) as [[]|[]| |[] m e]. }
    cbn. by rewrite orb_true_r.
Qed.

Ltac bool_keys :=
  repeat match goal with
    | H : true = true ↔ ?Q |- _ =>
        let H' := fresh in assert (H' : Q) by (by apply H); clear H
    | H : false = true ↔ ?Q |- _ =>
        let H' := fresh in
        assert (H' : ¬ Q) by (let q := fresh in intros q; by apply H in q);
        clear H
    end.

Ltac key_lia :=
  repeat match goal with
    | a : (Z * Z * Z)%type |- _ => destruct a as [[??]?]
    end;
  unfold lexlt in *; cbn [fst snd] in *;
  try (repeat f_equal); lia.

Lemma sort_insert_comm x y l a b :
  fkey x = Some a → fkey y = Some b → (a = b → x = y) →
  sort_insert x (sort_insert y l) = sort_insert y (sort_insert x l).
Proof.
  intros Ha Hb Hinj.
  pose proof (sorts_before_key x y a Ha) as Hxy. rewrite Hb in Hxy.
  pose proof (sorts_before_key y x b Hb) as Hyx. rewrite Ha in Hyx.
  induction l as [|z l IH]; cbn [sort_insert].
  - destruct (sorts_before x y), (sorts_before y x); bool_keys; try done.
    + rewrite Hinj; [done|]. clear -H H0. key_lia.
    + exfalso. clear -H H0. key_lia.
  - pose proof (sorts_before_key x z a Ha) as Hxz.
    pose proof (sorts_before_key y z b Hb) as Hyz.
    destruct (sorts_before y z) eqn:E3, (sorts_before x z) eqn:E4;
      cbn [sort_insert]; rewrite ?E3, ?E4.
    + clear Hxz Hyz.
      destruct (sorts_before x y), (sorts_before y x); bool_keys; try done.
      * rewrite Hinj; [done|]. clear -H H0. key_lia.
      * exfalso. clear -H H0. key_lia.
    + destruct (sorts_before x y); [|done]. exfalso. clear Hyx.
      destruct (fkey z) as [c|]; bool_keys; [|done].
      clear -H H0 H1. key_lia.
    + destruct (sorts_before y x); [|done]. exfalso. clear Hxy.
      destruct (fkey z) as [c|]; bool_keys; [|done].
      clear -H H0 H1. key_lia.
    + by rewrite IH.
Qed.

Lemma np_sort_permutation ps ps' :
  Forall (λ p, (0 <? p)%float = true) ps → ps ≡ₚ ps' →
  np_sort ps = np_sort ps'.
Proof.
  intros Hps Hperm. unfold np_sort.
  apply (foldr_permutation (=) sort_insert []); [|done].
  intros j1 x j2 y l _ Hx%list_elem_of_lookup_2 Hy%list_elem_of_lookup_2.
  apply (proj1 (Forall_forall _ _) Hps) in Hx, Hy.
  destruct (positive_key x Hx) as [a Ha], (positive_key y Hy) as [b Hb].
  apply (sort_insert_comm x y l a b Ha Hb).
  intros ->. apply positive_key_inj; [done..|]. by rewrite Ha, Hb.
Qed.

(** X16: the order in which positive cut points are given does not
    change the result of [to_linear_ranges]. *)
Theorem to_linear_ranges_any_order {K} float_str (data : list (K * float))
    (ps ps' : list float) :
  Forall (λ p, (0 <? p)%float = true) ps → ps ≡ₚ ps' →
  to_linear_ranges float_str data ps = to_linear_ranges float_str data ps'.
Proof.
  intros Hps Hperm. unfold to_linear_ranges, linear_ranges_ann.
  by rewrite (np_sort_permutation ps ps').
Qed.

Lemma to_linear_ranges_all_missing_witness :
  Forall (λ r, notna r.2 = false) data_all_missing ∧
  to_linear_ranges exact_decimal data_all_missing [0.5%float] = [].
Proof.
  assert (Forall (λ r : Z * float, notna r.2 = false) data_all_missing)
    as Hall by (by repeat constructor).
  split; [exact Hall|].
  exact (to_linear_ranges_all_missing exact_decimal data_all_missing
           [0.5%float] Hall).
Defined.

Lemma to_linear_ranges_labelled_witness :
  Forall (λ r, is_finite r.2 = true) data_tenths ∧
  Forall (λ p, (0 <? p)%float = true ∧ (p <? 1)%float = true) [0.5%float] ∧
  thresholds_ordered (series_min data_tenths.*2)
    (series_max data_tenths.*2 - series_min data_tenths.*2) (IntCut 0)
    ((FloatCut <$> np_sort [0.5%float]) ++ [IntCut 1])%list ∧
  (to_linear_ranges exact_decimal data_tenths [0.5%float]).*1
  ≡ₚ (filter (λ r, (r.2 <=? threshold (series_min data_tenths.*2)
                      (series_max data_tenths.*2 - series_min data_tenths.*2)
                      (IntCut 1))%float = true) data_tenths).*1.
Proof.
  assert (Forall (λ r : Z * float, is_finite r.2 = true) data_tenths)
    as Hfin by (by repeat constructor).
  assert (Forall (λ p, (0 <? p)%float = true ∧ (p <? 1)%float = true)
            [0.5%float]) as Hps by (by repeat constructor).
  assert (thresholds_ordered (series_min data_tenths.*2)
            (series_max data_tenths.*2 - series_min data_tenths.*2)
            (IntCut 0)
            ((FloatCut <$> np_sort [0.5%float]) ++ [IntCut 1])%list)
    as Hord by (by repeat split).
  split; [exact Hfin|]. split; [exact Hps|]. split; [exact Hord|].
  exact (to_linear_ranges_labelled exact_decimal data_tenths Hfin
           [0.5%float] Hps Hord).
Defined.

Lemma to_linear_ranges_any_order_witness :
  Forall (λ p, (0 <? p)%float = true) [0.5; 0.25]%float ∧
  [0.5; 0.25]%float ≡ₚ [0.25; 0.5]%float ∧
  to_linear_ranges exact_decimal data_quarters [0.5; 0.25]%float
  = to_linear_ranges exact_decimal data_quarters [0.25; 0.5]%float.
Proof.
  assert (Forall (λ p, (0 <? p)%float = true) [0.5; 0.25]%float) as Hps
    by (by repeat constructor).
  assert ([0.5; 0.25]%float ≡ₚ [0.25; 0.5]%float) as Hperm
    by apply perm_swap.
  split; [exact Hps|]. split; [exact Hperm|].
  exact (to_linear_ranges_any_order exact_decimal data_quarters
           [0.5; 0.25]%float [0.25; 0.5]%float Hps Hperm).
Defined.

(** ** Colours of factors *)

Section colours_facts.
Context `{EqDecision V}.
Context (Vle : relation V) `{!RelDecision Vle}.
Context {colour : Type}.
Context (rainbow : colormap colour) (to_hex : colour → string).
Context (linspace : float → float → nat → list float).

Lemma elem_of_unique (l : list V) x : x ∈ unique l ↔ x ∈ l.
Proof.
  induction l as [|y l IH]; [done|]. cbn [unique].
  rewrite !elem_of_cons, list_elem_of_filter, IH.
  destruct (decide (x = y)); tauto.
Qed.

Lemma NoDup_unique (l : list V) : NoDup (unique l).
Proof.
  induction l as [|y l IH]; cbn [unique]; [constructor|].
  apply NoDup_cons. split.
  - by intros [? _]%list_elem_of_filter.
  - by apply NoDup_filter.
Qed.

Lemma elem_of_present (factors : list (option V)) v :
  v ∈ omap id factors ↔ Some v ∈ factors.
Proof.
  rewrite list_elem_of_omap. split.
  - intros (y & Hin & Hy). cbn in Hy. by subst.
  - intros Hin. by exists (Some v).
Qed.

(** X17: with [linspace=True] (and an [np.linspace] that returns
    [num] points), [lin_colors] raises nothing and gives a colour to
    every value of the vector that is not missing and to nothing else,
    each value once; the keys are in ascending order when [sort] is set
    and in the order of first appearance otherwise. *)
Theorem lin_colors_linspace factors cmap sort min_v max_v :
  (∀ a b n, length (linspace a b n) = n) →
  ∃ d, lin_colors Vle rainbow to_hex linspace factors cmap sort min_v max_v
         true = inr d ∧
    NoDup d.*1 ∧
    (∀ v, v ∈ d.*1 ↔ Some v ∈ factors) ∧
    d.*1 = (if sort then merge_sort Vle (unique (omap id factors))
            else unique (omap id factors)).
Proof.
  intros Hlen. unfold lin_colors. destruct cmap as [|c]; eexists;
    (split; [done|]); rewrite fst_zip
      by (by rewrite !length_fmap, Hlen);
    (split; [|split; [|done]]).
  all: destruct sort; rewrite ?merge_sort_Permutation;
    try apply NoDup_unique; intros v; rewrite ?merge_sort_Permutation;
    by rewrite elem_of_unique, elem_of_present.
Qed.

(** X18: with [linspace=False] and a colormap that lists its
    colours, [lin_colors] raises nothing and pairs the first distinct
    values (in ascending order when [sort] is set, in the order of first
    appearance otherwise) with the first colours, the value at each
    position with the text of the colour at that position, as many as
    the shorter of the two has: every key is a value of the vector, no
    key repeats, all the values get a colour when the colours suffice,
    and when the colormap lists fewer colours than there are distinct
    values, some value is left without a colour, silently. *)
Theorem lin_colors_listed factors c colors (sort : bool) min_v max_v :
  cmap_colors c = Some colors →
  let values := if sort then merge_sort Vle (unique (omap id factors))
                else unique (omap id factors) in
  let n := length (unique (omap id factors)) in
  ∃ d, lin_colors Vle rainbow to_hex linspace factors (Cmap c) sort
         min_v max_v false = inr d ∧
    d.*1 = take (length colors) values ∧
    (∀ i v h, d !! i = Some (v, h) ↔
       values !! i = Some v ∧ to_hex <$> colors !! i = Some h) ∧
    length d = (n `min` length colors)%nat ∧
    d.*2 = to_hex <$> take n colors ∧
    NoDup d.*1 ∧
    (∀ v, v ∈ d.*1 → Some v ∈ factors) ∧
    ((n ≤ length colors)%nat → ∀ v, Some v ∈ factors → v ∈ d.*1) ∧
    ((length colors < n)%nat → ∃ v, Some v ∈ factors ∧ v ∉ d.*1).
Proof.
  intros Hc uf n. unfold lin_colors. rewrite Hc. fold uf.
  assert (Hperm : uf ≡ₚ unique (omap id factors)).
  { unfold uf. destruct sort; [apply merge_sort_Permutation|done]. }
  assert (Hn : length uf = n) by by rewrite Hperm.
  assert (Hnd : NoDup uf) by (rewrite Hperm; apply NoDup_unique).
  assert (Hin : ∀ v, v ∈ uf ↔ Some v ∈ factors).
  { intros v. by rewrite Hperm, elem_of_unique, elem_of_present. }
  clearbody uf. eexists. split; [done|].
  assert (Hfst : (zip uf (to_hex <$> take (length uf) colors)).*1
                 = take (length colors) uf).
  { rewrite <-(take_drop (length colors) uf) at 1.
    destruct (decide (length colors ≤ length uf)%nat) as [Hle|Hgt].
    - rewrite (take_ge colors) by done.
      rewrite <-(app_nil_r (to_hex <$> colors)).
      rewrite zip_with_app by (by rewrite length_fmap, length_take_le).
      destruct (drop (length colors) uf); cbn [zip_with];
        rewrite app_nil_r; apply fst_zip;
        by rewrite length_fmap, length_take_le.
    - rewrite (take_ge uf), (drop_ge uf), app_nil_r by lia.
      apply fst_zip. rewrite length_fmap, length_take_le; lia. }
  split; [exact Hfst|]. split.
  { intros i v h. rewrite lookup_zip_with_Some. split.
    - intros (x & y & [= -> ->] & Hx & Hy). split; [done|].
      by rewrite list_lookup_fmap, lookup_take_lt in Hy
        by by eapply lookup_lt_Some.
    - intros [Hv Hh]. exists v, h. split; [done|]. split; [done|].
      by rewrite list_lookup_fmap, lookup_take_lt
        by by eapply lookup_lt_Some. }
  rewrite Hfst. split; [|split; [|split; [|split; [|split]]]].
  - rewrite length_zip_with, length_fmap, length_take. lia.
  - rewrite snd_zip by (rewrite length_fmap, length_take; lia).
    by rewrite Hn.
  - eapply sublist_NoDup; [done|apply sublist_take].
  - intros v Hv. apply Hin. by apply elem_of_take in Hv as (i & Hv%list_elem_of_lookup_2 & _).
  - intros Hle v Hv. rewrite take_ge by lia. by apply Hin.
  - intros Hlt. destruct (lookup_lt_is_Some_2 uf (length colors)) as [v Hv];
      [lia|]. exists v. split.
    + apply Hin. by eapply list_elem_of_lookup_2.
    + intros (i & Hi & Hlt')%elem_of_take.
      pose proof (NoDup_lookup uf i (length colors) v Hnd Hi Hv). lia.
Qed.
End colours_facts.

Section colours_order.
Context `{EqDecision V}.
Context (Vle : relation V) `{!RelDecision Vle}.
Context {colour : Type}.
Context (rainbow : colormap colour) (to_hex : colour → string).
Context (linspace : float → float → nat → list float).

(** X19: with [sort=True] and a total order on the values, the
    result of [lin_colors] depends on the set of the values that are
    not missing only, not on their order or on how often each occurs. *)
Theorem lin_colors_same_values factors1 factors2 cmap min_v max_v flag :
  Transitive Vle → AntiSymm (=) Vle → Total Vle →
  (∀ v, Some v ∈ factors1 ↔ Some v ∈ factors2) →
  lin_colors Vle rainbow to_hex linspace factors1 cmap true min_v max_v flag
  = lin_colors Vle rainbow to_hex linspace factors2 cmap true min_v max_v flag.
Proof.
  intros Htrans Hanti Htotal Hsame.
  assert (merge_sort Vle (unique (omap id factors1))
          = merge_sort Vle (unique (omap id factors2))) as Heq.
  { apply (Sorted_unique Vle); [by apply Sorted_merge_sort..|].
    rewrite !merge_sort_Permutation.
    apply NoDup_Permutation; [apply NoDup_unique..|].
    intros v. by rewrite !elem_of_unique, !elem_of_present. }
  unfold lin_colors. by rewrite Heq.
Qed.
End colours_order.

Lemma lin_colors_linspace_witness :
  (∀ a b n, length (even_points a b n) = n) ∧
  ∃ d, lin_colors Z.le grey_map grey_hex even_points factors_312 Default
         true 0 1 true = inr d ∧
    NoDup d.*1 ∧
    (∀ v, v ∈ d.*1 ↔ Some v ∈ factors_312) ∧
    d.*1 = (if true then merge_sort Z.le (unique (omap id factors_312))
            else unique (omap id factors_312)).
Proof.
  assert (∀ a b n, length (even_points a b n) = n) as Hlen.
  { intros a b n. unfold even_points. by rewrite length_fmap, length_seq. }
  split; [exact Hlen|].
  exact (lin_colors_linspace Z.le grey_map grey_hex even_points factors_312
           Default true 0 1 Hlen).
Defined.

Lemma lin_colors_listed_witness :
  cmap_colors grey_map = Some [0%float; 1%float] ∧
  let values := if true then merge_sort Z.le (unique (omap id factors_312))
                else unique (omap id factors_312) in
  let n := length (unique (omap id factors_312)) in
  ∃ d, lin_colors Z.le grey_map grey_hex even_points factors_312
         (Cmap grey_map) true 0 1 false = inr d ∧
    d.*1 = take (length [0%float; 1%float]) values ∧
    (∀ i v h, d !! i = Some (v, h) ↔
       values !! i = Some v ∧ grey_hex <$> [0%float; 1%float] !! i = Some h) ∧
    length d = (n `min` length [0%float; 1%float])%nat ∧
    d.*2 = grey_hex <$> take n [0%float; 1%float] ∧
    NoDup d.*1 ∧
    (∀ v, v ∈ d.*1 → Some v ∈ factors_312) ∧
    ((n ≤ length [0%float; 1%float])%nat →
     ∀ v, Some v ∈ factors_312 → v ∈ d.*1) ∧
    ((length [0%float; 1%float] < n)%nat →
     ∃ v, Some v ∈ factors_312 ∧ v ∉ d.*1).
Proof.
  split; [reflexivity|].
  exact (lin_colors_listed Z.le grey_map grey_hex even_points factors_312
           grey_map [0%float; 1%float] true 0 1 eq_refl).
Defined.

Lemma lin_colors_same_values_witness :
  Transitive Z.le ∧ AntiSymm (=) Z.le ∧ Total Z.le ∧
  (∀ v, Some v ∈ factors_312 ↔ Some v ∈ factors_123) ∧
  lin_colors Z.le grey_map grey_hex even_points factors_312 Default true
    0 1 true
  = lin_colors Z.le grey_map grey_hex even_points factors_123 Default true
      0 1 true.
Proof.
  assert (∀ v, Some v ∈ factors_312 ↔ Some v ∈ factors_123) as Hsame.
  { intros v. unfold factors_312, factors_123.
    split; intros Hv;
      repeat (apply elem_of_cons in Hv as [Hv|Hv]; [try discriminate Hv|]);
      try (by apply elem_of_nil in Hv);
      injection Hv as ->; by apply (bool_decide_unpack _). }
  split; [exact _|]. split; [exact _|]. split; [exact _|].
  split; [exact Hsame|].
  exact (lin_colors_same_values Z.le grey_map grey_hex even_points
           factors_312 factors_123 Default 0 1 true _ _ _ Hsame).
Defined.
